(** * ckb-next daemon: start-up, signal bridge and shutdown (src/daemon/main.c)

    A shallow embedding of [main.c] of the ckb-next daemon and the
    properties of its shutdown orchestration, of its signal handling,
    and of the two utility functions [timespec_add] and [localecase].

    Conventions.
    - C integers are [Z]; a 64-bit signed result is passed through
      [wrap64], so that the no-overflow side conditions of a statement
      are visible in it.
    - The process state touched by [main.c] is the record [daemon];
      every statement of the C code that is visible from outside
      appends an [event] to its [trace], oldest event first.
    - Functions of the daemon that live in other translation units
      (usb.c, device.c, devnode.c, ...) are the fields of the class
      [Externals]; results of system calls of one particular run are
      the fields of the record [oracle]. *)

From Stdlib Require Import ZArith Lia Ascii String.
From stdpp Require Import gmap strings list.

Local Open Scope Z_scope.

(** ** 64-bit signed arithmetic *)

Definition int64_min : Z := - 2 ^ 63.
Definition int64_max : Z := 2 ^ 63 - 1.

Definition in_int64 (z : Z) : Prop := int64_min <= z <= int64_max.

(** Two's complement wrap-around of a mathematical integer to [int64_t]. *)
Definition wrap64 (z : Z) : Z := (z + 2 ^ 63) mod 2 ^ 64 - 2 ^ 63.

(** ** timespec_add (main.c, lines 21-25) *)

(** [struct timespec]; [time_t] and [long] are 64 bits wide (LP64). *)
Record timespec := Timespec { tv_sec : Z; tv_nsec : Z }.

Definition NSEC_PER_SEC : Z := 1000000000.

(** The instant a timespec stands for, in nanoseconds. *)
Definition instant (t : timespec) : Z := tv_sec t * NSEC_PER_SEC + tv_nsec t.

(** [/] and [%] of C truncate towards zero: [Z.quot] and [Z.rem]. *)
Definition timespec_add (t : timespec) (nanoseconds : Z) : timespec :=
  let nanoseconds := wrap64 (nanoseconds + tv_nsec t) in
  {| tv_sec := wrap64 (tv_sec t + Z.quot nanoseconds 1000000000);
     tv_nsec := Z.rem nanoseconds 1000000000 |}.

(** The two additions of [timespec_add] stay inside [int64_t]. *)
Definition timespec_add_no_overflow (t : timespec) (n : Z) : Prop :=
  in_int64 (n + tv_nsec t) /\
  in_int64 (tv_sec t + Z.quot (n + tv_nsec t) 1000000000).

Definition normalized (t : timespec) : Prop := 0 <= tv_nsec t < NSEC_PER_SEC.

(** ** localecase (main.c, lines 123-138) *)

Definition NUL : ascii := Ascii.zero.

(** [tolower] of <ctype.h>. The daemon never calls [setlocale], so the
    "C" locale is in force: only 'A'..'Z' have a lower-case form. *)
Definition tolower (c : ascii) : ascii :=
  let n := N_of_ascii c in
  if ((65 <=? n) && (n <=? 90))%N then ascii_of_N (n + 32) else c.

(** What the loop body makes of one source character. *)
Definition locale_char (s : ascii) : ascii :=
  if decide (s = "_"%char) then "-"%char else tolower s.

(** [*p = c] where [p] points [i] bytes into the object [buf]. A write
    outside the object is undefined behaviour: [None]. *)
Definition store (buf : list ascii) (i : nat) (c : ascii) : option (list ascii) :=
  if decide (i < length buf)%nat then Some (<[i:=c]> buf) else None.

(** The [while] loop together with the final [*dst = 0]. [dst] is the
    whole destination object, [idx] the offset of the C pointer [dst]
    into it, [ldst] the offset of the C pointer [ldst]; [src] is the
    source object from the C pointer [src] on. Running off the end of
    the source object without meeting a NUL is undefined: [None]. *)
Fixpoint localecase_loop (dst : list ascii) (idx ldst : nat) (src : list ascii)
  : option (list ascii) :=
  match src with
  | [] => None
  | s :: src =>
      if decide (s = NUL) then store dst idx NUL
      else
        dst ← store dst idx (locale_char s);
        let idx := S idx in
        if decide (idx = ldst) then store dst (idx - 1) NUL
        else localecase_loop dst idx ldst src
  end.

Definition localecase (dst : list ascii) (length : nat) (src : list ascii)
  : option (list ascii) :=
  localecase_loop dst 0 length src.

(** A C string [str] laid out in memory, followed by arbitrary bytes. *)
Definition c_string (str rest : list ascii) : list ascii := str ++ NUL :: rest.

(** Writing [cs] and a terminating NUL at offset [idx] of [dst]. *)
Definition written (dst : list ascii) (idx : nat) (cs : list ascii) : list ascii :=
  take idx dst ++ cs ++ NUL :: drop (idx + length cs + 1)%nat dst.

(** The sentence of the claim about [length = 0], read on the model:
    the call changes at most one byte of the destination object. *)
Definition writes_one_byte (dst dst' : list ascii) : Prop :=
  ∃ i : nat, ∀ j : nat, j ≠ i → dst' !! j = dst !! j.

(** ** What main.c takes from the rest of the daemon *)

(** Constants, types and functions that [main.c] uses and that are
    declared in headers and translation units outside this file. The
    functions are given the slot they are called on, as in the C calls
    [revertusb(keyboard + i)] and [closeusb(keyboard + i)]; what they
    do to the hardware is not modelled, what they do to the slot is
    left open. The three [sscanf_*] fields stand for the three [sscanf]
    calls of [main]: [Some] of the converted values when the call
    returns the number of conversions that [main] compares it with;
    [sscanf_search] also gives what the call leaves in [dev.vendor] and
    [dev.product], which [main] has zeroed before. *)
Class Externals := {
  DEV_MAX : nat;
  DEV_STATUS_CONNECTING : Z;
  DEV_STATUS_CONNECTED : Z;
  usbdevice : Type;
  status : usbdevice → Z;
  zero_device : usbdevice;
  revertusb : usbdevice → usbdevice;
  closeusb : usbdevice → usbdevice;
  FEAT_BIND : Z;
  FEAT_NOTIFY : Z;
  patchkeys : Z → Z → list (option string);
  sscanf_gid : string → option Z;
  sscanf_ignore : string → option (Z * Z);
  sscanf_search : string → Z * Z * option nat;
  CKB_NEXT_VERSION_STR : string;
  CKB_NEXT_DESCRIPTION : string;
  devpath : string;
  pidpath : string;
}.

(** Signal numbers of <signal.h> (Linux). *)
Definition SIGINT : Z := 2.
Definition SIGQUIT : Z := 3.
Definition SIGUSR2 : Z := 12.
Definition SIGTERM : Z := 15.

(** The functions of [main.c] that are installed as signal handlers. *)
Inductive handler := Hsighandler | Hignore_signal | Hnullhandler.

Inductive loglevel := Info | Warn | Fatal.

(** An argument of a [printf]-like call. *)
Inductive parg := PInt (z : Z) | PStr (s : string).

(** What a run of the daemon does, as seen from outside [main.c].
    String literals are kept as they are spelled in the C source. *)
Inductive event :=
  | EvResetStop                                (* reset_stop = 1 *)
  | EvLock (i : nat)                           (* queued_mutex_lock(devmutex + i) *)
  | EvUnlock (i : nat)                         (* queued_mutex_unlock(devmutex + i) *)
  | EvRevert (i : nat)                         (* revertusb(keyboard + i) *)
  | EvClose (i : nat)                          (* closeusb(keyboard + i) *)
  | EvMkdevpath (i : nat)                      (* mkdevpath(keyboard + i) *)
  | EvRmdevpath (i : nat)                      (* rmdevpath(keyboard + i) *)
  | EvUsbmain                                  (* usbmain() *)
  | EvUsbkill                                  (* usbkill() *)
  | EvSignal (sig : Z) (h : handler)           (* signal(sig, h), sigaction(sig, ...) *)
  | EvLog (lvl : loglevel) (fmt : string) (args : list parg)
                                               (* ckb_info, ckb_warn, ckb_fatal, *_nofile *)
  | EvWrite (str : string)                     (* safe_write(str) *)
  | EvPrintf (fmt : string) (args : list parg). (* printf(fmt, args) *)

Section daemon.
Context `{Ext : Externals}.

(** Globals set from the command line (they live in other files). *)
Record options := Options {
  gid : Z;
  features_mask : Z;
  enable_experimental : Z;
  ignored_devices : list (Z * Z);              (* idVendor, idProduct *)
}.

(** The state of the process as far as [main.c] reads or writes it. *)
Record daemon := Daemon {
  reset_stop : Z;                              (* _Atomic int reset_stop *)
  keyboard : list usbdevice;                   (* usbdevice keyboard[DEV_MAX] *)
  nodes : gset nat;                            (* slots whose device node exists *)
  handlers : gmap Z handler;                   (* dispositions set by signal(); absent: SIG_DFL *)
  sighandler_pipe : list Z;                    (* written to the sender end, not yet read *)
  opts : options;
  trace : list event;
}.

Definition action : Type := daemon → daemon.

Definition with_reset_stop (v : Z) : action := λ st,
  Daemon v (keyboard st) (nodes st) (handlers st) (sighandler_pipe st) (opts st) (trace st).
Definition with_keyboard (k : list usbdevice) : action := λ st,
  Daemon (reset_stop st) k (nodes st) (handlers st) (sighandler_pipe st) (opts st) (trace st).
Definition with_nodes (n : gset nat) : action := λ st,
  Daemon (reset_stop st) (keyboard st) n (handlers st) (sighandler_pipe st) (opts st) (trace st).
Definition with_handlers (h : gmap Z handler) : action := λ st,
  Daemon (reset_stop st) (keyboard st) (nodes st) h (sighandler_pipe st) (opts st) (trace st).
Definition with_pipe (p : list Z) : action := λ st,
  Daemon (reset_stop st) (keyboard st) (nodes st) (handlers st) p (opts st) (trace st).
Definition with_opts (o : options) : action := λ st,
  Daemon (reset_stop st) (keyboard st) (nodes st) (handlers st) (sighandler_pipe st) o (trace st).

(** Appends one event to the trace. *)
Definition emit (e : event) : action := λ st,
  Daemon (reset_stop st) (keyboard st) (nodes st) (handlers st) (sighandler_pipe st)
         (opts st) (trace st ++ [e]).

(** Runs statements in sequence. *)
Definition run (body : list action) (st : daemon) : daemon :=
  foldl (λ st a, a st) st body.

(** ** quit (main.c, lines 32-54) *)

(** The test of both loops of [quit]. *)
Definition connecting_or_connected (kb : usbdevice) : bool :=
  bool_decide (status kb = DEV_STATUS_CONNECTING)
  || bool_decide (status kb = DEV_STATUS_CONNECTED).

(** [reset_stop = 1;] *)
Definition set_reset_stop : action := λ st, emit EvResetStop (with_reset_stop 1 st).

(** One iteration of the first loop. The table has [DEV_MAX] entries
    and [i < DEV_MAX], so the lookup succeeds (the [None] branch is
    there for totality only). *)
Definition revert_slot (i : nat) : action := λ st,
  let st := emit (EvLock i) st in
  let st :=
    match keyboard st !! i with
    | Some kb =>
        if connecting_or_connected kb
        then with_keyboard (<[i := revertusb kb]> (keyboard st)) (emit (EvRevert i) st)
        else st
    | None => st
    end in
  emit (EvUnlock i) st.

(** One iteration of the second loop. Modelled from the spec: besides
    what [closeusb] (device.c, not under src/) does to the slot, closing
    releases the slot's virtual device node (spec 4.4, step 3). *)
Definition close_slot (i : nat) : action := λ st,
  let st := emit (EvLock i) st in
  let st :=
    match keyboard st !! i with
    | Some kb =>
        if connecting_or_connected kb
        then with_nodes (nodes st ∖ {[i]})
               (with_keyboard (<[i := closeusb kb]> (keyboard st)) (emit (EvClose i) st))
        else st
    | None => st
    end in
  emit (EvUnlock i) st.

(** The indices [i = 1; i < DEV_MAX; i++] of both loops. *)
Definition slots : list nat := seq 1 (DEV_MAX - 1).

Definition ckb_info (fmt : string) (args : list parg) : action :=
  emit (EvLog Info fmt args).

(** [rmdevpath(keyboard)]: removes the root controller's node. *)
Definition rmdevpath_root : action := λ st,
  with_nodes (nodes st ∖ {[0%nat]}) (emit (EvRmdevpath 0) st).

Definition usbkill : action := emit EvUsbkill.

(** The statements of [quit] after [reset_stop = 1]. *)
Definition quit_rest : list action :=
  (revert_slot <$> slots) ++ (close_slot <$> slots)
  ++ [ckb_info "Closing root controller" []; rmdevpath_root; usbkill].

Definition quit_body : list action := set_reset_stop :: quit_rest.

Definition quit : action := run quit_body.

(** ** The signal handlers (main.c, lines 56-121) *)

Definition safe_write (str : string) : action := emit (EvWrite str).

(** The [switch (type)] of [ignore_signal]. *)
Definition signal_name (type : Z) : string :=
  if decide (type = SIGTERM) then "SIGTERM"
  else if decide (type = SIGINT) then "SIGINT"
  else if decide (type = SIGQUIT) then "SIGQUIT"
  else "UNKNOWN".

Definition ignore_signal (type : Z) : action := λ st,
  let st := safe_write "\n[W] Ignoring signal " st in
  let st := safe_write (signal_name type) st in
  safe_write " (already shutting down)\n" st.

(** [write(sighandler_pipe[SIGHANDLER_SENDER], &type, sizeof(int))];
    the result of [write] is not looked at. *)
Definition sighandler (type : Z) : action := λ st,
  with_pipe (sighandler_pipe st ++ [type]) st.

Definition nullhandler (s : Z) : action :=
  safe_write "[I] Caught internal signal SIGUSR2\n".

Definition call_handler (h : handler) (type : Z) : action :=
  match h with
  | Hsighandler => sighandler type
  | Hignore_signal => ignore_signal type
  | Hnullhandler => nullhandler type
  end.

(** [signal(sig, h)] *)
Definition signal (sig : Z) (h : handler) : action := λ st,
  with_handlers (<[sig := h]> (handlers st)) (emit (EvSignal sig h) st).

(** ** exithandler (main.c, lines 95-103) *)

(** The statements of [exithandler] before its [exit(0)]; the call of
    [quit] is spelled out as the statements of [quit]. *)
Definition exithandler_body (type : Z) : list action :=
  [ signal SIGTERM Hignore_signal;
    signal SIGINT Hignore_signal;
    signal SIGQUIT Hignore_signal;
    emit (EvPrintf "\n[I] Caught signal %d\n" [PInt type]) ]
  ++ quit_body.

(** [exithandler] does not return: the process ends with [exit(0)].
    The result is the final state and the exit status. *)
Definition exithandler (type : Z) (st : daemon) : daemon * Z :=
  (run (exithandler_body type) st, 0).

(** Number of times [quit] has been entered. *)
Definition is_reset_stop (e : event) : bool :=
  match e with EvResetStop => true | _ => false end.

Definition quit_runs (st : daemon) : nat :=
  length (filter (λ e, is_reset_stop e = true) (trace st)).

(** ** main (main.c, lines 140-316) *)

Definition ckb_warn (fmt : string) (args : list parg) : action :=
  emit (EvLog Warn fmt args).
Definition ckb_fatal (fmt : string) (args : list parg) : action :=
  emit (EvLog Fatal fmt args).
Definition printf (fmt : string) (args : list parg) : action :=
  emit (EvPrintf fmt args).

(** The [return] or [exit] statement that ends the process. *)
Inductive exit_point :=
  | AtHelp                (* line 174, return 0 *)
  | AtVersion             (* line 177, return 0 *)
  | AtAlreadyRunning      (* line 194, return 1 *)
  | AtSearch              (* lines 248, 253 and 257 *)
  | AtNotRoot             (* line 277, exit(0) *)
  | AtClock               (* line 309, exit(1) *)
  | AtUsbmain             (* line 315, return result *)
  | AtSignal.             (* line 102, exit(0) of exithandler *)

(** Final state, the statement that ended the process, exit status. *)
Definition ending : Type := daemon * exit_point * Z.

(** How the call [usbmain()] ends: it returns [result], or its loop
    reads a signal number from the receiving end of [sighandler_pipe]
    and calls [exithandler], which does not return. Modelled from the
    spec: the reader of the channel is in the USB subsystem, not under
    src/ (spec 4.5: a reader in ordinary execution context drains the
    channel and starts the shutdown). *)
Inductive usb_outcome := UsbReturn (result : Z) | UsbSignal (type : Z).

(** Results of the system calls and of the external functions of one
    run of [main], and the device table and the device nodes that the
    USB subsystem leaves behind when its main loop ends. *)
Record oracle := Oracle {
  o_is_pid_running : Z;
  o_getuid : Z;
  o_mkdevpath : Z;
  o_socketpair : Z;
  o_init_cond_monotonic : Z;
  o_keyboard : list usbdevice;
  o_nodes : gset nat;
  o_usbmain : usb_outcome;
}.

(** The usage text (lines 148-173), options part left out. *)
Definition usage : string :=
  "Usage: ckb-next-daemon [--version] [--gid=<gid>] [--nonotify] [--nobind] [--nonroot]\n%s\n\nOptions: ...".

(** First loop over [argv] (lines 146-179). *)
Fixpoint help_or_version (args : list string) (st : daemon) : option ending :=
  match args with
  | [] => None
  | a :: args =>
      if decide (a = "--help")
      then Some (printf usage [PStr CKB_NEXT_DESCRIPTION; PStr devpath] st, AtHelp, 0)
      else if decide (a = "--version")
      then Some (printf "ckb-next-daemon %s\n" [PStr CKB_NEXT_VERSION_STR] st, AtVersion, 0)
      else help_or_version args st
  end.

(** [s + n] on a C string. *)
Fixpoint advance (n : nat) (s : string) : string :=
  match n, s with
  | S n, String _ s => advance n s
  | _, _ => s
  end.

(** [strcasecmp(a, b) == 0] in the "C" locale. *)
Definition strcasecmp_eq (a b : string) : bool :=
  bool_decide (tolower <$> list_ascii_of_string a = tolower <$> list_ascii_of_string b).

(** The loop over the patched keymap (lines 241-257), from index [j]. *)
Fixpoint search_keymap (searchstr : string) (keymap : list (option string)) (j : Z)
  (st : daemon) : daemon * Z :=
  match keymap with
  | [] => (printf "Key %s was not found\n" [PStr searchstr] st, 1)
  | None :: keymap =>
      if decide (searchstr = EmptyString)
      then (printf "First NULL key has id %d\n" [PInt j] st, 0)
      else search_keymap searchstr keymap (j + 1) st
  | Some name :: keymap =>
      if strcasecmp_eq searchstr name
      then (printf "Key %s has id %d\n" [PStr name; PInt j] st, 0)
      else search_keymap searchstr keymap (j + 1) st
  end.

(** The [--search=] branch (lines 227-257); it always returns. *)
Definition search (argument : string) (st : daemon) : daemon * Z :=
  let searchstr := advance 9 argument in
  let '(vendor, product, converted) := sscanf_search searchstr in
  let searchstr :=
    match converted with
    | Some count =>
        let searchstr := advance count searchstr in
        if decide (searchstr = EmptyString) then searchstr else advance 1 searchstr
    | None => searchstr
    end in
  search_keymap searchstr (patchkeys vendor product) 0 st.

(** The loop that enters a vid/pid pair in the first free entry of
    [ignored_devices] (lines 220-226). *)
Fixpoint add_ignored (vid pid : Z) (l : list (Z * Z)) : list (Z * Z) :=
  match l with
  | [] => []
  | (v, p) :: l =>
      if bool_decide (v ≠ 0) || bool_decide (p ≠ 0)
      then (v, p) :: add_ignored vid pid l
      else (vid, pid) :: l
  end.

(** The body of the second loop over [argv] (lines 200-270) for one
    argument: the next state and [forceroot], or the process ends. *)
Definition read_parameter (argument : string) (forceroot : bool) (st : daemon)
  : daemon * bool + ending :=
  let o := opts st in
  match sscanf_gid argument with
  | Some newgid =>
      let o := Options newgid (features_mask o) (enable_experimental o) (ignored_devices o) in
      inl (emit (EvLog Info "Setting /dev node gid: %u" [PInt newgid]) (with_opts o st),
           forceroot)
  | None =>
  if decide (argument = "--nobind") then
    let mask := Z.land (features_mask o) (Z.land (Z.lnot FEAT_BIND) (Z.lnot FEAT_NOTIFY)) in
    let o := Options (gid o) mask (enable_experimental o) (ignored_devices o) in
    inl (emit (EvLog Info "Key binding and key notifications are disabled" [])
           (with_opts o st), forceroot)
  else if decide (argument = "--nonotify") then
    let mask := Z.land (features_mask o) (Z.lnot FEAT_NOTIFY) in
    let o := Options (gid o) mask (enable_experimental o) (ignored_devices o) in
    inl (emit (EvLog Info "Key notifications are disabled" []) (with_opts o st), forceroot)
  else if decide (argument = "--nonroot") then
    inl (st, false)
  else
  match sscanf_ignore argument with
  | Some (vid, pid) =>
      let o := Options (gid o) (features_mask o) (enable_experimental o)
                 (add_ignored vid pid (ignored_devices o)) in
      inl (with_opts o st, forceroot)
  | None =>
  if String.prefix "--search=" argument then
    let '(st, code) := search argument st in inr (st, AtSearch, code)
  else if decide (argument = "--enable-experimental") then
    let o := Options (gid o) (features_mask o) 1 (ignored_devices o) in
    inl (with_opts o st, forceroot)
  else inl (st, forceroot)
  end
  end.

Fixpoint read_parameters (args : list string) (forceroot : bool) (st : daemon)
  : daemon * bool + ending :=
  match args with
  | [] => inl (st, forceroot)
  | argument :: args =>
      match read_parameter argument forceroot st with
      | inl (st, forceroot) => read_parameters args forceroot st
      | inr e => inr e
      end
  end.

(** [mkdevpath(keyboard)] with result [r]; the root controller's node
    exists afterwards when the call succeeded ([r = 0]). *)
Definition mkdevpath_root (r : Z) : action := λ st,
  let st := emit (EvMkdevpath 0) st in
  if decide (r = 0)
  then ckb_info "Root controller ready at %s0" [PStr devpath]
         (with_nodes (nodes st ∪ {[0%nat]}) st)
  else st.

(** Lines 288-294. *)
Definition setup_signal_handlers (r : Z) : action := λ st,
  if decide (r ≠ -1)
  then signal SIGQUIT Hsighandler (signal SIGINT Hsighandler (signal SIGTERM Hsighandler st))
  else ckb_warn "Unable to setup signal handlers" [] st.

(** [main] up to the call of [usbmain] (lines 140-310): the state in
    which [usbmain] is called, or the process has ended before.
    [setlinebuf], [umask] and [srand] leave no mark on the state. *)
Definition startup (o : oracle) (argv : list string) (st : daemon) : daemon + ending :=
  let args := tail argv in
  match help_or_version args st with
  | Some e => inr e
  | None =>
  let st := printf "ckb-next-daemon %s\n" [PStr CKB_NEXT_VERSION_STR] st in
  if decide (o_is_pid_running o ≠ 0) then
    let st := ckb_fatal "ckb-next-daemon is already running (PID %ld)."
                [PInt (o_is_pid_running o)] st in
    let st := ckb_fatal "Try `systemctl stop ckb-next-daemon` or `killall ckb-next-daemon`."
                [] st in
    let st := ckb_fatal "(If you're certain the process is dead, delete %s and try again.)"
                [PStr pidpath] st in
    inr (st, AtAlreadyRunning, 1)
  else
  match read_parameters args true st with
  | inr e => inr e
  | inl (st, forceroot) =>
  if bool_decide (o_getuid o ≠ 0) && forceroot then
    inr (ckb_fatal "ckb-next-daemon must be run as root. Try `sudo %s`"
           [PStr (default EmptyString (head argv))] st, AtNotRoot, 0)
  else
  let st :=
    if decide (o_getuid o ≠ 0)
    then ckb_warn "Warning: not running as root, allowing anyway per command-line parameter..."
           [] st
    else st in
  (* Make root keyboard *)
  let st := with_keyboard (replicate DEV_MAX zero_device) st in
  let st := mkdevpath_root (o_mkdevpath o) st in
  let st := setup_signal_handlers (o_socketpair o) st in
  let st := signal SIGUSR2 Hnullhandler st in
  if decide (o_init_cond_monotonic o ≠ 0)
  then inr (ckb_fatal "Failed to initialize monotonic clock." [] st, AtClock, 1)
  else inl st
  end
  end.

(** The device table and the nodes when the loop of [usbmain] ends. *)
Definition usbmain (o : oracle) : action := λ st,
  with_nodes (o_nodes o) (with_keyboard (o_keyboard o) (emit EvUsbmain st)).

Definition main (o : oracle) (argv : list string) (st : daemon) : ending :=
  match startup o argv st with
  | inr e => e
  | inl st =>
      let st := usbmain o st in
      match o_usbmain o with
      | UsbReturn result => (quit st, AtUsbmain, result)
      | UsbSignal type => let '(st, code) := exithandler type st in (st, AtSignal, code)
      end
  end.


(** ** Signals arriving while the daemon runs

    The main thread sits in the loop of [usbmain] until a signal number
    shows up in [sighandler_pipe] or the loop ends on its own; it then
    runs [exithandler], or the rest of [main], one statement at a time.
    Termination signals are delivered at any point in between and run
    the handler that is installed at that moment. *)

Inductive termsig := Interrupt | Terminate | Quit.

Definition signum (s : termsig) : Z :=
  match s with Interrupt => SIGINT | Terminate => SIGTERM | Quit => SIGQUIT end.

(** Where the main thread is. *)
Inductive thread :=
  | InUsbmain                               (* line 313, inside usbmain() *)
  | InExithandler (type : Z) (pc : nat)     (* before statement [pc] of exithandler(type) *)
  | InQuit (result : Z) (pc : nat)          (* line 314, before statement [pc] of quit() *)
  | Exited (code : Z)                       (* after exit(code) or return code *)
  | Killed (sig : Z).                       (* default action of signal [sig] *)

Record process := Process { p_daemon : daemon; p_thread : thread }.

Inductive input :=
  | Deliver (s : termsig)                   (* a termination signal is delivered *)
  | MainStep                                (* the main thread runs one statement *)
  | UsbmainReturns (result : Z).            (* the loop of usbmain ends by itself *)

(** Modelled from the spec: the [InUsbmain] case of [MainStep] is the
    reader of the notification channel, which is part of the USB
    subsystem and not under src/ (spec 4.5): it takes the oldest signal
    number from the channel and calls [exithandler] with it. *)
Definition step (p : process) (i : input) : process :=
  let st := p_daemon p in
  match p_thread p, i with
  | Exited _, _ | Killed _, _ => p
  | th, Deliver s =>
      match handlers st !! signum s with
      | Some h => Process (call_handler h (signum s) st) th
      | None => Process st (Killed (signum s))
      end
  | InUsbmain, MainStep =>
      match sighandler_pipe st with
      | type :: rest => Process (with_pipe rest st) (InExithandler type 0)
      | [] => p
      end
  | InUsbmain, UsbmainReturns result => Process st (InQuit result 0)
  | InExithandler type pc, MainStep =>
      match exithandler_body type !! pc with
      | Some a => Process (a st) (InExithandler type (S pc))
      | None => Process st (Exited 0)
      end
  | InQuit result pc, MainStep =>
      match quit_body !! pc with
      | Some a => Process (a st) (InQuit result (S pc))
      | None => Process st (Exited result)
      end
  | _, UsbmainReturns _ => p
  end.

Definition exec (p : process) (sched : list input) : process :=
  foldl step p sched.

(** All three termination signals are handled by [h]. *)
Definition handled_by (h : handler) (st : daemon) : Prop :=
  ∀ s, handlers st !! signum s = Some h.

(** The state in which [main] calls [usbmain] when [socketpair]
    succeeded: handlers installed, nothing in the channel, [quit] not
    entered yet. *)
Definition bridge_ready (p : process) : Prop :=
  p_thread p = InUsbmain
  ∧ handled_by Hsighandler (p_daemon p)
  ∧ sighandler_pipe (p_daemon p) = []
  ∧ quit_runs (p_daemon p) = 0%nat.

Definition is_main_step (i : input) : bool :=
  match i with MainStep => true | _ => false end.

(** Number of statements that the main thread gets to run in [sched]. *)
Definition main_steps (sched : list input) : nat :=
  length (filter (λ i, is_main_step i = true) sched).

(** What [ignore_signal] prints for signal [s]. *)
Definition warning (s : termsig) : list event :=
  [ EvWrite "\n[W] Ignoring signal ";
    EvWrite (signal_name (signum s));
    EvWrite " (already shutting down)\n" ].

(** The events of a run of [quit]: what it appends to the trace. *)
Definition quit_events (st : daemon) : list event :=
  drop (length (trace st)) (trace (quit st)).

(** [e1] comes before [e2] wherever both occur in [l]. *)
Definition precedes (e1 e2 : event) (l : list event) : Prop :=
  ∀ i j : nat, l !! i = Some e1 → l !! j = Some e2 → (i < j)%nat.

(** ** Closed forms of one pass of [quit], used in the proofs *)

(** Both loop bodies of [quit] are instances of one visit: under the
    slot's lock, if the slot is connecting or connected, log [ev i],
    apply [f] to the slot and, when [rm] is set, drop the slot's node. *)
Definition visit (ev : nat → event) (f : usbdevice → usbdevice) (rm : bool) (i : nat)
  : action := λ st,
  let st := emit (EvLock i) st in
  let st :=
    match keyboard st !! i with
    | Some kb =>
        if connecting_or_connected kb
        then with_nodes (if rm then nodes st ∖ {[i]} else nodes st)
               (with_keyboard (<[i := f kb]> (keyboard st)) (emit (ev i) st))
        else st
    | None => st
    end in
  emit (EvUnlock i) st.

(** Whether slot [i] of table [k] passes the test of the loops. *)
Definition open_slot (k : list usbdevice) (i : nat) : bool :=
  match k !! i with Some kb => connecting_or_connected kb | None => false end.

(** The events of one visit of slot [i] when the table is [k]. *)
Definition visit_events (ev : nat → event) (k : list usbdevice) (i : nat) : list event :=
  EvLock i :: (if open_slot k i then [ev i] else []) ++ [EvUnlock i].

(** What a visit makes of a slot. *)
Definition visited (f : usbdevice → usbdevice) (kb : usbdevice) : usbdevice :=
  if connecting_or_connected kb then f kb else kb.

(** The last three events of every run of [quit]. *)
Definition quit_tail : list event :=
  [EvLog Info "Closing root controller" []; EvRmdevpath 0; EvUsbkill].

(** The table between the two passes of [quit st]. *)
Definition reverted_table (st : daemon) : list usbdevice :=
  keyboard (run (revert_slot <$> slots) (set_reset_stop st)).

(** A statement that leaves the abort flag, the signal handlers and the
    notification channel alone and does not enter [quit]. *)
Definition quiet (a : action) : Prop :=
  ∀ st, reset_stop (a st) = reset_stop st
        ∧ handlers (a st) = handlers st
        ∧ sighandler_pipe (a st) = sighandler_pipe st
        ∧ quit_runs (a st) = quit_runs st.

(** ** Invariants of the process under signals, used in the proofs *)

(** Every termination signal has a handler (none takes its default
    action, which would kill the process). *)
Definition installed (st : daemon) : Prop :=
  ∀ s, is_Some (handlers st !! signum s).

(** What holds of a process started in a [bridge_ready] state, by the
    place of its main thread: how far the swap of the handlers has
    come and whether [quit] has been entered. *)
Definition safe (p : process) : Prop :=
  let st := p_daemon p in
  match p_thread p with
  | InUsbmain => handled_by Hsighandler st ∧ quit_runs st = 0%nat
  | InExithandler type pc =>
      installed st
      ∧ (1 ≤ pc → handlers st !! SIGTERM = Some Hignore_signal)%nat
      ∧ (2 ≤ pc → handlers st !! SIGINT = Some Hignore_signal)%nat
      ∧ (3 ≤ pc → handlers st !! SIGQUIT = Some Hignore_signal)%nat
      ∧ quit_runs st = (if decide (pc ≤ 4)%nat then 0 else 1)%nat
      ∧ (pc ≤ length (exithandler_body type))%nat
  | InQuit result pc =>
      installed st
      ∧ quit_runs st = (if decide (pc = 0)%nat then 0 else 1)%nat
      ∧ (pc ≤ length quit_body)%nat
  | Exited code => quit_runs st = 1%nat
  | Killed sig => False
  end.

(** A signal number is waiting in the channel if the main thread is
    still in the loop of [usbmain]. *)
Definition pending (p : process) : Prop :=
  p_thread p = InUsbmain → sighandler_pipe (p_daemon p) ≠ [].

(** The statement of [exithandler] that replaces the handler of [s]
    (lines 96-98: SIGTERM, SIGINT, SIGQUIT). *)
Definition swap_index (s : termsig) : nat :=
  match s with Terminate => 0 | Interrupt => 1 | Quit => 2 end%nat.

(** Until [exithandler] has run the statement that replaces it,
    [sighandler] is still the handler of a termination signal. *)
Definition unswapped (p : process) : Prop :=
  match p_thread p with
  | InExithandler type pc =>
      ∀ s, (pc ≤ swap_index s)%nat →
           handlers (p_daemon p) !! signum s = Some Hsighandler
  | _ => True
  end.

(** Number of statements of [exithandler], [exit(0)] included, plus the
    step of the reader: after that many steps of the main thread a
    pending shutdown is over. *)
Definition shutdown_steps : nat := (length (exithandler_body 0) + 2)%nat.

(** Steps that the main thread still has to make. *)
Definition remaining (p : process) : nat :=
  match p_thread p with
  | InUsbmain => shutdown_steps
  | InExithandler type pc => (S (length (exithandler_body type)) - pc)%nat
  | InQuit result pc => (S (length quit_body) - pc)%nat
  | Exited _ | Killed _ => 0%nat
  end.

(** ** Readings of claims on the model, and relations used in the proofs *)

(** [st'] differs from [st] in the options and in what was printed
    only: flag, device table, nodes, handlers and channel are the same
    and [quit] has not been entered in between. *)
Definition same_core (st st' : daemon) : Prop :=
  reset_stop st' = reset_stop st
  ∧ keyboard st' = keyboard st
  ∧ nodes st' = nodes st
  ∧ handlers st' = handlers st
  ∧ sighandler_pipe st' = sighandler_pipe st
  ∧ quit_runs st' = quit_runs st.

(** The two fatal start-up failures: daemon already running, monotonic
    clock not available. *)
Definition fatal_startup_exit (pt : exit_point) : Prop :=
  pt = AtAlreadyRunning ∨ pt = AtClock.

(** C4 as it is stated: once a termination signal has been delivered to
    the daemon, every later one that reaches the running process prints
    the warning of [ignore_signal]. *)
Definition later_signals_print_warning : Prop :=
  ∀ p0 s sched s',
    bridge_ready p0 →
    (∀ code, p_thread (exec p0 (Deliver s :: sched)) ≠ Exited code) →
    trace (p_daemon (step (exec p0 (Deliver s :: sched)) (Deliver s')))
    = trace (p_daemon (exec p0 (Deliver s :: sched))) ++ warning s'.

(** C5 as it is stated: at a fatal start-up exit no device node exists. *)
Definition no_node_at_fatal_startup_exit : Prop :=
  ∀ o argv st st' pt code,
    nodes st = ∅ →
    main o argv st = (st', pt, code) →
    fatal_startup_exit pt →
    nodes st' = ∅.

(** C6 as it is stated: whenever the shutdown sequence has run, the exit
    status is the result that the USB subsystem returned. *)
Definition exit_status_is_usbmain_result : Prop :=
  ∀ o argv st st' pt code,
    quit_runs st = 0%nat →
    main o argv st = (st', pt, code) →
    (1 ≤ quit_runs st')%nat →
    o_usbmain o = UsbReturn code.


(** The state [st1] that lines 282-305 of [main] make of [st]: the
    device table is zeroed, the root controller's node exists if
    [mkdevpath] succeeded, [sighandler] handles the three termination
    signals if [socketpair] succeeded (otherwise nothing is installed
    for them and a warning is logged), [nullhandler] handles SIGUSR2. *)
Definition set_up (o : oracle) (st st1 : daemon) : Prop :=
  reset_stop st1 = reset_stop st
  ∧ quit_runs st1 = quit_runs st
  ∧ sighandler_pipe st1 = sighandler_pipe st
  ∧ keyboard st1 = replicate DEV_MAX zero_device
  ∧ nodes st1 = (if decide (o_mkdevpath o = 0) then nodes st ∪ {[0%nat]} else nodes st)
  ∧ handlers st1
    = <[SIGUSR2 := Hnullhandler]>
        (if decide (o_socketpair o ≠ -1)
         then <[SIGQUIT := Hsighandler]>
                (<[SIGINT := Hsighandler]> (<[SIGTERM := Hsighandler]> (handlers st)))
         else handlers st)
  ∧ (o_socketpair o = -1 →
     EvLog Warn "Unable to setup signal handlers" [] ∈ trace st1).

(** A statement that leaves the flag as it is or sets it. *)
Definition keeps_or_sets (a : action) : Prop :=
  ∀ st, reset_stop (a st) = reset_stop st ∨ reset_stop (a st) = 1%Z.

End daemon.

(** ** A sample configuration

    Nine slots as in the daemon, devices reduced to their status,
    a revert that leaves the status alone and a close that empties the
    slot; used to run the model on concrete inputs. *)
Definition sample : Externals := {|
  DEV_MAX := 9;
  DEV_STATUS_CONNECTING := 1;
  DEV_STATUS_CONNECTED := 2;
  usbdevice := Z;
  status := λ kb, kb;
  zero_device := 0;
  revertusb := λ kb, kb;
  closeusb := λ _, 0;
  FEAT_BIND := 1;
  FEAT_NOTIFY := 2;
  patchkeys := λ _ _, [Some "esc"; None];
  sscanf_gid := λ _, None;
  sscanf_ignore := λ _, None;
  sscanf_search := λ _, (0, 0, None);
  CKB_NEXT_VERSION_STR := "0.6.0";
  CKB_NEXT_DESCRIPTION := "ckb-next";
  devpath := "/dev/input/ckb";
  pidpath := "/dev/input/ckb0/pid";
|}.

(** The process as it starts: nothing set, nothing created. *)
Definition boot : @daemon sample :=
  @Daemon sample 0 (replicate 9 0) ∅ ∅ [] (Options 0 3 0 (replicate 9 (0, 0))) [].

(** A daemon in operation: keyboards in slots 1 and 2, the second one
    still connecting, their nodes and the root controller's node in
    place, the handlers of [main] installed. *)
Definition two_keyboards : @daemon sample :=
  @Daemon sample 0 [0; 2; 1; 0; 0; 0; 0; 0; 0] {[0%nat; 1%nat; 2%nat]}
         (<[SIGUSR2 := Hnullhandler]>
            (<[SIGQUIT := Hsighandler]>
               (<[SIGINT := Hsighandler]> (<[SIGTERM := Hsighandler]> ∅))))
         [] (Options 0 3 0 (replicate 9 (0, 0))) [].

(** A run as root in which everything succeeds and [usbmain] returns
    [result] with the table and the nodes of [two_keyboards]. *)
Definition clean_run (result : Z) : @oracle sample :=
  @Oracle sample 0 0 0 0 0 [0; 2; 1; 0; 0; 0; 0; 0; 0] {[0%nat; 1%nat; 2%nat]} (UsbReturn result).

(** The same, but the monotonic clock cannot be set up. *)
Definition no_clock : @oracle sample :=
  @Oracle sample 0 0 0 0 (-1) [] ∅ (UsbReturn 0).

(** The same as [clean_run], but another instance is running as PID 4711. *)
Definition already_running : @oracle sample :=
  @Oracle sample 4711 0 0 0 0 [] ∅ (UsbReturn 0).

(** The same as [clean_run], but the shutdown is started by SIGINT. *)
Definition interrupted : @oracle sample :=
  @Oracle sample 0 0 0 0 0 [0; 2; 1; 0; 0; 0; 0; 0; 0] {[0%nat; 1%nat; 2%nat]} (UsbSignal SIGINT).


(** The command line of a start without options. *)
Definition argv0 : list string := ["ckb-next-daemon"].

(** ** Further definitions, used for the properties beyond the claims *)

(** 'A'..'Z'. *)
Definition is_upper (c : ascii) : bool :=
  ((65 <=? N_of_ascii c) && (N_of_ascii c <=? 90))%N.

(** The lock discipline of the slot table, read over a list of events:
    [held] is the slot whose lock is held. [None] when the discipline is
    broken: a lock is taken while one is held, a lock is released that
    is not held, a slot is reverted or closed without its own lock, or
    the root controller is removed or the USB subsystem stopped while a
    lock is held. Otherwise the lock held at the end. *)
Fixpoint lock_run (held : option nat) (l : list event) : option (option nat) :=
  match l with
  | [] => Some held
  | e :: l =>
      match e, held with
      | EvLock i, None => lock_run (Some i) l
      | EvLock _, Some _ => None
      | EvUnlock i, Some j => if decide (i = j) then lock_run None l else None
      | EvUnlock _, None => None
      | EvRevert i, Some j | EvClose i, Some j =>
          if decide (i = j) then lock_run held l else None
      | EvRevert _, None | EvClose _, None => None
      | EvRmdevpath _, Some _ | EvUsbkill, Some _ => None
      | _, _ => lock_run held l
      end
  end.

(** The slots that are reverted, closed and locked, in the order of
    the events. *)
Definition reverted_slots (l : list event) : list nat :=
  omap (λ e, match e with EvRevert i => Some i | _ => None end) l.
Definition closed_slots (l : list event) : list nat :=
  omap (λ e, match e with EvClose i => Some i | _ => None end) l.
Definition locked_slots (l : list event) : list nat :=
  omap (λ e, match e with EvLock i => Some i | _ => None end) l.

Section daemon_more.
Context `{Ext : Externals}.

Definition is_write (e : event) : bool :=
  match e with EvWrite _ => true | _ => false end.

(** Everything of the state except the notification channel and what
    the signal handlers print with [safe_write]. *)
Definition devices (st : daemon)
  : Z * list usbdevice * gset nat * gmap Z handler * options * list event :=
  (reset_stop st, keyboard st, nodes st, handlers st, opts st,
   filter (λ e, is_write e = false) (trace st)).


(** The results with which [usbmain] returns in a schedule. *)
Definition usb_results (sched : list input) : list Z :=
  omap (λ i, match i with UsbmainReturns r => Some r | _ => None end) sched.

(** Whether an entry of the keymap is what [--search=] looks for: the
    key of that name, whatever the case of the letters, or, when the
    name searched for is empty, an entry without a name. *)
Definition key_hit (searchstr : string) (entry : option string) : bool :=
  match entry with
  | None => bool_decide (searchstr = EmptyString)
  | Some name => strcasecmp_eq searchstr name
  end.

(** An entry of [ignored_devices] that is not in use. *)
Definition free_entry (e : Z * Z) : Prop := e.1 = 0 ∧ e.2 = 0.

#[global] Instance free_entry_dec e : Decision (free_entry e).
Proof. unfold free_entry. apply _. Defined.

(** The argument is one that the [--search=] branch of [main] takes:
    the [sscanf] calls tried before do not convert it and it starts
    with ["--search="]. *)
Definition search_argument (a : string) : Prop :=
  sscanf_gid a = None ∧ sscanf_ignore a = None ∧ String.prefix "--search=" a = true.

(** The argument is one that the [--nonroot] branch of [main] takes. *)
Definition nonroot_argument (a : string) : Prop :=
  sscanf_gid a = None ∧ a = "--nonroot".

(** The argument is one that the [--nobind] branch of [main] takes. *)
Definition nobind_argument (a : string) : Prop :=
  sscanf_gid a = None ∧ a = "--nobind".

End daemon_more.

(** Runs on the [sample] functions for the command line. *)

(** The same as [clean_run], but started by the user with UID 1000. *)
Definition not_root : @oracle sample :=
  @Oracle sample 0 1000 0 0 0 [0; 2; 1; 0; 0; 0; 0; 0; 0] {[0%nat; 1%nat; 2%nat]} (UsbReturn 0).

(** A command line that asks for the id of a key. *)
Definition argv_search : list string := ["ckb-next-daemon"; "--search=ESC"].

(** A command line that switches binding and notifications off. *)
Definition argv_nobind : list string := ["ckb-next-daemon"; "--nobind"].
(** * Proofs *)

(** ** 64-bit arithmetic and timespec_add *)

Lemma wrap64_id z : in_int64 z -> wrap64 z = z.
Proof.
  unfold in_int64, int64_min, int64_max, wrap64. intros H.
  rewrite Z.mod_small by lia. lia.
Qed.

Example timespec_add_carry :
  timespec_add (Timespec 5 999999999) 2 = Timespec 6 1.
Proof. reflexivity. Qed.

Example timespec_add_negative :
  timespec_add (Timespec 5 0) (-1) = Timespec 5 (-1).
Proof. reflexivity. Qed.

Lemma timespec_add_exact t n :
  timespec_add_no_overflow t n ->
  timespec_add t n =
    Timespec (tv_sec t + Z.quot (n + tv_nsec t) 1000000000)
             (Z.rem (n + tv_nsec t) 1000000000).
Proof.
  intros [H1 H2]. unfold timespec_add.
  rewrite (wrap64_id (n + tv_nsec t)) by exact H1.
  rewrite wrap64_id by exact H2. reflexivity.
Qed.

(** C9. Without overflow [timespec_add] moves the instant by exactly
    [n] nanoseconds; a normalized input and [n >= 0] give a normalized
    result; a negative [n] can leave [tv_nsec] negative. *)
Theorem timespec_add_instant (t : timespec) (n : Z) :
  in_int64 n -> in_int64 (tv_sec t) -> in_int64 (tv_nsec t) ->
  timespec_add_no_overflow t n ->
  instant (timespec_add t n) = instant t + n
  /\ (normalized t -> 0 <= n -> normalized (timespec_add t n))
  /\ (exists t' n', normalized t' /\ n' < 0 /\ in_int64 n'
        /\ in_int64 (tv_sec t') /\ timespec_add_no_overflow t' n'
        /\ tv_nsec (timespec_add t' n') < 0).
Proof.
  intros _ _ _ Hno. rewrite (timespec_add_exact _ _ Hno).
  split; [|split].
  - unfold instant, NSEC_PER_SEC; simpl.
    pose proof (Z.quot_rem' (n + tv_nsec t) 1000000000) as E. lia.
  - unfold normalized, NSEC_PER_SEC; simpl. intros Hn Hpos.
    apply Z.rem_bound_pos; lia.
  - exists (Timespec 0 0), (-1).
    unfold normalized, NSEC_PER_SEC, timespec_add_no_overflow, in_int64,
      int64_min, int64_max; simpl.
    repeat split; try lia; vm_compute; congruence.
Qed.

Lemma timespec_add_instant_witness :
  instant (timespec_add (Timespec 5 999999999) 2)
    = instant (Timespec 5 999999999) + 2.
Proof.
  refine (proj1 (timespec_add_instant (Timespec 5 999999999) 2 _ _ _ _));
    unfold timespec_add_no_overflow, in_int64, int64_min, int64_max; simpl;
    repeat split; vm_compute; congruence.
Defined.

(** ** localecase *)

Example localecase_en_US :
  localecase (replicate 8 "x"%char) 6 (c_string (list_ascii_of_string "en_US") [])
  = Some (list_ascii_of_string "en-us" ++ [NUL; "x"; "x"]%char).
Proof. reflexivity. Qed.

Example localecase_truncates :
  localecase (replicate 8 "x"%char) 3 (c_string (list_ascii_of_string "en_US") [])
  = Some (list_ascii_of_string "en" ++ [NUL; "x"; "x"; "x"; "x"; "x"]%char).
Proof. reflexivity. Qed.

Example localecase_length_1 :
  localecase (replicate 2 "x"%char) 1 (c_string (list_ascii_of_string "en_US") [])
  = Some [NUL; "x"%char].
Proof. reflexivity. Qed.

Lemma tolower_not_NUL c : c ≠ NUL → tolower c ≠ NUL.
Proof.
  unfold tolower, NUL. intros Hc.
  destruct ((65 <=? N_of_ascii c) && (N_of_ascii c <=? 90))%N eqn:E; [|done].
  apply andb_prop in E as [E1 E2].
  apply N.leb_le in E1. apply N.leb_le in E2.
  intros Hz. apply (f_equal N_of_ascii) in Hz.
  rewrite N_ascii_embedding in Hz by lia. simpl in Hz. lia.
Qed.

Lemma locale_char_not_NUL c : c ≠ NUL → locale_char c ≠ NUL.
Proof.
  unfold locale_char. intros Hc. case_decide; [done|].
  by apply tolower_not_NUL.
Qed.

Lemma store_Some buf i c :
  (i < length buf)%nat → store buf i c = Some (<[i:=c]> buf).
Proof. unfold store. intros H. by rewrite decide_True. Qed.

Lemma store_None buf i c :
  (length buf ≤ i)%nat → store buf i c = None.
Proof. unfold store. intros H. rewrite decide_False; [done|lia]. Qed.

Section localecase_proofs.
Local Open Scope nat_scope.

Lemma written_nil dst idx :
  idx < length dst → <[idx:=NUL]> dst = written dst idx [].
Proof.
  intros H. unfold written; simpl.
  rewrite insert_take_drop by done.
  by replace (idx + 0 + 1) with (S idx) by lia.
Qed.

Lemma written_cons dst idx c cs :
  idx < length dst →
  written (<[idx:=c]> dst) (S idx) cs = written dst idx (c :: cs).
Proof.
  intros H. unfold written.
  rewrite (take_S_r _ idx c) by (by apply list_lookup_insert_eq).
  rewrite take_insert_ge by lia.
  rewrite drop_insert_lt by lia.
  rewrite <- app_assoc. simpl.
  by replace (S (idx + length cs + 1)) with (idx + S (length cs) + 1) by lia.
Qed.

(** The loop while the pointer [dst] is below [ldst]: it stops at the
    source's NUL or when [dst] reaches [ldst], whichever comes first. *)
Lemma localecase_loop_bounded str : ∀ dst idx ldst rest,
  NUL ∉ str → idx < ldst → ldst ≤ length dst →
  localecase_loop dst idx ldst (c_string str rest)
  = Some (written dst idx (locale_char <$> take (ldst - 1 - idx) str)).
Proof.
  induction str as [|s str IH]; intros dst idx ldst rest Hnul Hlt Hle.
  - unfold c_string; simpl. rewrite store_Some by lia.
    rewrite take_nil. simpl. by rewrite written_nil by lia.
  - apply not_elem_of_cons in Hnul as [Hs Hnul].
    unfold c_string; simpl. rewrite decide_False by done.
    rewrite store_Some by lia. simpl.
    destruct (decide (S idx = ldst)) as [<-|Hne].
    + rewrite Nat.sub_0_r, store_Some by (rewrite length_insert; lia).
      rewrite list_insert_insert_eq.
      replace (S idx - 1 - idx) with 0 by lia. simpl.
      by rewrite written_nil by lia.
    + fold (c_string str rest).
      rewrite IH by (rewrite ?length_insert; (done || lia)).
      replace (ldst - 1 - idx) with (S (ldst - 1 - S idx)) by lia.
      simpl. by rewrite written_cons by lia.
Qed.

(** The loop once the pointer [dst] is past [ldst] (which is where it
    starts when [length = 0]): the test [dst == ldst] never succeeds and
    the whole source string is copied. *)
Lemma localecase_loop_unbounded str : ∀ dst idx ldst rest,
  NUL ∉ str → ldst ≤ idx →
  localecase_loop dst idx ldst (c_string str rest)
  = if decide (idx + length str < length dst)
    then Some (written dst idx (locale_char <$> str)) else None.
Proof.
  induction str as [|s str IH]; intros dst idx ldst rest Hnul Hle.
  - unfold c_string; simpl. unfold store.
    replace (idx + 0) with idx by lia.
    case_decide; [|done]. by rewrite written_nil by lia.
  - apply not_elem_of_cons in Hnul as [Hs Hnul].
    unfold c_string; simpl. rewrite decide_False by done.
    destruct (decide (idx < length dst)) as [Hin|Hout].
    + rewrite store_Some by done. simpl.
      rewrite decide_False by lia. fold (c_string str rest).
      rewrite IH by (done || lia). rewrite length_insert.
      replace (S idx + length str) with (idx + S (length str)) by lia.
      case_decide; [|done]. by rewrite written_cons by lia.
    + rewrite store_None by lia. simpl.
      by rewrite decide_False by lia.
Qed.

(** The sentence of the claim about [length = 0], read on the model:
    the call changes at most one byte of the destination object. *)
(** C10, as stated, fails for [length = 0]: with a non-empty source the
    test [dst == ldst] is never true, so the whole source and its NUL
    are written. Here three bytes of a four-byte object change. *)
Lemma localecase_length_0_overrun :
  let dst := replicate 4 "x"%char in
  let src := c_string (list_ascii_of_string "ab") [] in
  localecase dst 0 src = Some (list_ascii_of_string "ab" ++ [NUL; "x"%char])
  ∧ ¬ (∀ dst', localecase dst 0 src = Some dst' → writes_one_byte dst dst').
Proof.
  split; [reflexivity|].
  intros H. destruct (H _ eq_refl) as [i Hi].
  destruct (decide (i = 0)) as [->|Hne].
  - specialize (Hi 1 ltac:(lia)). discriminate Hi.
  - specialize (Hi 0 ltac:(lia)). discriminate Hi.
Qed.

(** C10, amended. For [1 <= length <= sizeof dst] the call succeeds,
    changes nothing from offset [length] on, and leaves in [dst] the
    first [min (strlen src) (length - 1)] characters of [src], each
    passed through [locale_char], followed by a NUL; the bytes after
    that NUL are as before. For [length = 0] the call writes
    [strlen src + 1] bytes from offset 0 on, none of which lies in the
    first [length] bytes, and runs out of the object when it is not
    larger than [strlen src]. *)
Theorem localecase_spec (dst : list ascii) (len : nat) (str rest : list ascii) :
  NUL ∉ str →
  (1 ≤ len → len ≤ length dst →
     ∃ dst', localecase dst len (c_string str rest) = Some dst'
       ∧ length dst' = length dst
       ∧ drop len dst' = drop len dst
       ∧ let k := Nat.min (length str) (len - 1) in
         take k dst' = locale_char <$> take k str
         ∧ dst' !! k = Some NUL
         ∧ (NUL ∉ take k dst')
         ∧ drop (S k) dst' = drop (S k) dst)
  ∧ (len = 0 →
     localecase dst len (c_string str rest)
     = if decide (length str < length dst)
       then Some ((locale_char <$> str) ++ NUL :: drop (S (length str)) dst)
       else None).
Proof.
  intros Hnul. split.
  - intros H1 Hle. unfold localecase.
    rewrite localecase_loop_bounded by (done || lia).
    replace (len - 1 - 0) with (len - 1) by lia.
    eexists; split; [done|].
    set (k := Nat.min (length str) (len - 1)).
    assert (Hk : length (locale_char <$> take (len - 1) str) = k)
      by (rewrite length_fmap, length_take; lia).
    assert (Htk : take (len - 1) str = take k str).
    { unfold k. destruct (decide (length str ≤ len - 1)).
      - rewrite Nat.min_l by done. by rewrite !take_ge by lia.
      - by rewrite Nat.min_r by lia. }
    unfold written. rewrite Hk. simpl. rewrite <- Htk.
    set (cs := locale_char <$> take (len - 1) str) in *.
    assert (Hcs : NUL ∉ cs).
    { unfold cs. intros Hin. apply list_elem_of_fmap in Hin as (c & Hc & Hin).
      apply (locale_char_not_NUL c); [|done].
      intros ->. apply Hnul. by eapply subseteq_take. }
    repeat split.
    + rewrite length_app. simpl. rewrite length_drop. lia.
    + rewrite drop_app_ge by lia. rewrite Hk.
      destruct (len - k) as [|m] eqn:Em; [lia|]. simpl.
      rewrite drop_drop. f_equal. lia.
    + by rewrite take_app_length' by done.
    + by rewrite list_lookup_middle by done.
    + by rewrite take_app_length' by done.
    + rewrite drop_app_ge by lia. rewrite Hk.
      replace (S k - k) with 1 by lia. simpl.
      rewrite drop_0. f_equal. lia.
  - intros ->. unfold localecase.
    rewrite localecase_loop_unbounded by (done || lia). simpl.
    case_decide; [|done]. unfold written. simpl.
    rewrite length_fmap.
    by replace (length str + 1) with (S (length str)) by lia.
Qed.

Lemma localecase_spec_witness :
  ∃ dst', localecase (replicate 8 "x"%char) 6
            (c_string (list_ascii_of_string "en_US") []) = Some dst'
    ∧ take 5 dst' = list_ascii_of_string "en-us"
    ∧ dst' !! 5 = Some NUL.
Proof.
  destruct (localecase_spec (replicate 8 "x"%char) 6
              (list_ascii_of_string "en_US") []) as [H _].
  - compute_done.
  - destruct H as (dst' & E & _ & _ & Ht & Hn & _); [simpl; lia|simpl; lia|].
    exists dst'. split; [exact E|]. split; [exact Ht|exact Hn].
Defined.

End localecase_proofs.


(** ** The shutdown sequence: quit *)

Section daemon_proofs.
Context `{Ext : Externals}.
Local Open Scope nat_scope.

Lemma run_app (b1 b2 : list action) st : run (b1 ++ b2) st = run b2 (run b1 st).
Proof. unfold run. by rewrite foldl_app. Qed.

Lemma run_cons (a : action) b st : run (a :: b) st = run b (a st).
Proof. done. Qed.

Lemma revert_slot_visit i : revert_slot i = visit EvRevert revertusb false i.
Proof. done. Qed.

Lemma close_slot_visit i : close_slot i = visit EvClose closeusb true i.
Proof. done. Qed.

Lemma open_slot_insert_ne k i j kb :
  i ≠ j → open_slot (<[i := kb]> k) j = open_slot k j.
Proof. intros H. unfold open_slot. by rewrite list_lookup_insert_ne. Qed.

(** One visit, field by field. *)
Lemma visit_trace ev f rm i st :
  trace (visit ev f rm i st) = trace st ++ visit_events ev (keyboard st) i.
Proof.
  unfold visit, visit_events, open_slot. simpl.
  destruct (keyboard st !! i) as [kb|]; simpl;
    [destruct (connecting_or_connected kb); simpl|];
    by rewrite <- ?app_assoc.
Qed.

Lemma visit_keyboard ev f rm i st j :
  keyboard (visit ev f rm i st) !! j
  = if decide (j = i) then visited f <$> keyboard st !! j else keyboard st !! j.
Proof.
  unfold visit, visited. simpl.
  destruct (keyboard st !! i) as [kb|] eqn:E; simpl.
  - destruct (connecting_or_connected kb) eqn:Eo; simpl.
    + case_decide as Hj; [subst j|by rewrite list_lookup_insert_ne].
      rewrite list_lookup_insert_eq by (by eapply lookup_lt_Some).
      rewrite E. simpl. by rewrite Eo.
    + case_decide as Hj; [subst j|done]. rewrite E. simpl. by rewrite Eo.
  - case_decide as Hj; [subst j|done]. by rewrite E.
Qed.

Lemma visit_frame ev f rm i st :
  reset_stop (visit ev f rm i st) = reset_stop st
  ∧ handlers (visit ev f rm i st) = handlers st
  ∧ sighandler_pipe (visit ev f rm i st) = sighandler_pipe st
  ∧ opts (visit ev f rm i st) = opts st
  ∧ length (keyboard (visit ev f rm i st)) = length (keyboard st)
  ∧ nodes (visit ev f rm i st) ⊆ nodes st.
Proof.
  unfold visit. simpl.
  destruct (keyboard st !! i) as [kb|]; simpl;
    [destruct (connecting_or_connected kb); simpl|];
    rewrite ?length_insert; repeat split; try done.
  destruct rm; [|done]. intros x [Hx _]%elem_of_difference. done.
Qed.

Lemma visit_events_ext ev k k' (l : list nat) :
  (∀ i, i ∈ l → k' !! i = k !! i) →
  l ≫= visit_events ev k' = l ≫= visit_events ev k.
Proof.
  induction l as [|a l IH]; intros Hk; [done|].
  rewrite !bind_cons. rewrite IH by (intros; apply Hk; by right).
  f_equal. unfold visit_events, open_slot. by rewrite Hk by left.
Qed.

(** A whole pass over distinct slots [l], in closed form. *)
Lemma visit_pass ev f rm l : NoDup l → ∀ st,
  let st' := run (visit ev f rm <$> l) st in
  trace st' = trace st ++ (l ≫= visit_events ev (keyboard st))
  ∧ (∀ j, keyboard st' !! j
          = if decide (j ∈ l) then visited f <$> keyboard st !! j else keyboard st !! j)
  ∧ reset_stop st' = reset_stop st
  ∧ handlers st' = handlers st
  ∧ sighandler_pipe st' = sighandler_pipe st
  ∧ opts st' = opts st
  ∧ length (keyboard st') = length (keyboard st)
  ∧ nodes st' ⊆ nodes st.
Proof.
  induction 1 as [|a l Ha Hl IH]; intros st st'; subst st'.
  - simpl. rewrite app_nil_r. repeat split; try done.
  - rewrite fmap_cons, run_cons.
    destruct (IH (visit ev f rm a st)) as (Ht & Hk & Hr & Hh & Hp & Ho & Hlen & Hn).
    destruct (visit_frame ev f rm a st) as (Hr1 & Hh1 & Hp1 & Ho1 & Hlen1 & Hn1).
    repeat split; try congruence; [| |by etrans].
    + rewrite Ht, visit_trace, <- app_assoc, bind_cons. do 2 f_equal.
      apply visit_events_ext. intros i Hi. rewrite visit_keyboard.
      rewrite decide_False; [done|]. intros ->. done.
    + intros j. rewrite Hk, visit_keyboard.
      destruct (decide (j = a)) as [->|Hja].
      * rewrite decide_False by done. rewrite decide_True by left. done.
      * destruct (decide (j ∈ l)).
        -- rewrite decide_True by (by right). done.
        -- rewrite decide_False; [done|]. by intros [?|?]%elem_of_cons.
Qed.

Lemma elem_of_visit_pass e ev k (l : list nat) :
  e ∈ l ≫= visit_events ev k
  ↔ ∃ i, i ∈ l ∧ (e = EvLock i ∨ e = EvUnlock i ∨ (e = ev i ∧ open_slot k i = true)).
Proof.
  rewrite list_elem_of_bind. unfold visit_events.
  split.
  - intros (i & He & Hi). exists i. split; [done|].
    apply elem_of_cons in He as [->|He]; [by left|].
    apply elem_of_app in He as [He|He].
    + destruct (open_slot k i); [|by apply elem_of_nil in He].
      apply list_elem_of_singleton in He. by right; right.
    + apply list_elem_of_singleton in He. by right; left.
  - intros (i & Hi & [->|[->|[-> Ho]]]); exists i; (split; [|done]).
    + by left.
    + right. apply elem_of_app. right. by apply list_elem_of_singleton.
    + right. apply elem_of_app. left. rewrite Ho. by apply list_elem_of_singleton.
Qed.

Lemma NoDup_slots : NoDup slots.
Proof. apply NoDup_seq. Qed.

Lemma elem_of_slots i : i ∈ slots ↔ 1 ≤ i < DEV_MAX.
Proof. unfold slots. rewrite elem_of_seq. lia. Qed.

Lemma quit_unfold st :
  quit st
  = usbkill (rmdevpath_root (ckb_info "Closing root controller" []
      (run (close_slot <$> slots) (run (revert_slot <$> slots) (set_reset_stop st))))).
Proof. unfold quit, quit_body, quit_rest. by rewrite run_cons, !run_app. Qed.

Lemma reverted_table_lookup st j :
  reverted_table st !! j
  = if decide (j ∈ slots) then visited revertusb <$> keyboard st !! j
    else keyboard st !! j.
Proof.
  unfold reverted_table.
  exact (proj1 (proj2
    (visit_pass EvRevert revertusb false slots NoDup_slots (set_reset_stop st))) j).
Qed.

(** The two passes of [quit] in closed form. *)
Lemma pass_revert st :
  let st' := run (revert_slot <$> slots) st in
  trace st' = trace st ++ (slots ≫= visit_events EvRevert (keyboard st))
  ∧ (∀ j, keyboard st' !! j
          = if decide (j ∈ slots) then visited revertusb <$> keyboard st !! j
            else keyboard st !! j)
  ∧ reset_stop st' = reset_stop st
  ∧ handlers st' = handlers st
  ∧ sighandler_pipe st' = sighandler_pipe st
  ∧ opts st' = opts st
  ∧ length (keyboard st') = length (keyboard st)
  ∧ nodes st' ⊆ nodes st.
Proof. exact (visit_pass EvRevert revertusb false slots NoDup_slots st). Qed.

Lemma pass_close st :
  let st' := run (close_slot <$> slots) st in
  trace st' = trace st ++ (slots ≫= visit_events EvClose (keyboard st))
  ∧ (∀ j, keyboard st' !! j
          = if decide (j ∈ slots) then visited closeusb <$> keyboard st !! j
            else keyboard st !! j)
  ∧ reset_stop st' = reset_stop st
  ∧ handlers st' = handlers st
  ∧ sighandler_pipe st' = sighandler_pipe st
  ∧ opts st' = opts st
  ∧ length (keyboard st') = length (keyboard st)
  ∧ nodes st' ⊆ nodes st.
Proof. exact (visit_pass EvClose closeusb true slots NoDup_slots st). Qed.

(** [quit] in closed form. *)
Lemma quit_closed_form st :
  trace (quit st)
  = trace st ++ EvResetStop ::
      (slots ≫= visit_events EvRevert (keyboard st))
      ++ (slots ≫= visit_events EvClose (reverted_table st)) ++ quit_tail
  ∧ (∀ j, keyboard (quit st) !! j
          = if decide (j ∈ slots) then visited closeusb <$> reverted_table st !! j
            else reverted_table st !! j)
  ∧ reset_stop (quit st) = 1%Z
  ∧ handlers (quit st) = handlers st
  ∧ sighandler_pipe (quit st) = sighandler_pipe st
  ∧ opts (quit st) = opts st
  ∧ length (keyboard (quit st)) = length (keyboard st)
  ∧ nodes (quit st) ⊆ nodes st ∖ {[0]}.
Proof.
  rewrite quit_unfold. unfold reverted_table.
  destruct (pass_revert (set_reset_stop st))
    as (Ht1 & Hk1 & Hr1 & Hh1 & Hp1 & Ho1 & Hl1 & Hn1).
  destruct (pass_close (run (revert_slot <$> slots) (set_reset_stop st)))
    as (Ht2 & Hk2 & Hr2 & Hh2 & Hp2 & Ho2 & Hl2 & Hn2).
  simpl. repeat split.
  - rewrite Ht2, Ht1. simpl. by rewrite <- !app_assoc.
  - exact Hk2.
  - by rewrite Hr2, Hr1.
  - by rewrite Hh2, Hh1.
  - by rewrite Hp2, Hp1.
  - by rewrite Ho2, Ho1.
  - by rewrite Hl2, Hl1.
  - apply elem_of_subseteq. intros x [Hx H0]%elem_of_difference.
    apply elem_of_difference. split; [|done]. by apply Hn1, Hn2.
Qed.

Lemma quit_events_closed_form st :
  quit_events st
  = EvResetStop ::
      (slots ≫= visit_events EvRevert (keyboard st))
      ++ (slots ≫= visit_events EvClose (reverted_table st)) ++ quit_tail.
Proof.
  unfold quit_events. destruct (quit_closed_form st) as (-> & _).
  by rewrite drop_app_length.
Qed.

Lemma precedes_app e1 e2 (l1 l2 : list event) :
  e2 ∉ l1 → e1 ∉ l2 → precedes e1 e2 (l1 ++ l2).
Proof.
  intros H2 H1 i j Hi Hj.
  destruct (decide (i < length l1)) as [Hlt|Hge].
  - destruct (decide (j < length l1)) as [Hjlt|]; [|lia].
    rewrite lookup_app_l in Hj by done.
    destruct H2. by eapply list_elem_of_lookup_2.
  - rewrite lookup_app_r in Hi by lia.
    destruct H1. by eapply list_elem_of_lookup_2.
Qed.

Lemma quit_runs_app st evs st' :
  trace st' = trace st ++ evs →
  quit_runs st' = quit_runs st + length (filter (λ e, is_reset_stop e = true) evs).
Proof. unfold quit_runs. intros ->. by rewrite filter_app, length_app. Qed.

Lemma quit_runs_emit e st :
  quit_runs (emit e st) = quit_runs st + (if is_reset_stop e then 1 else 0).
Proof.
  rewrite (quit_runs_app st [e]) by done.
  by destruct e.
Qed.

Lemma no_reset_stop evs :
  Forall (λ e, is_reset_stop e = false) evs →
  length (filter (λ e, is_reset_stop e = true) evs) = 0.
Proof.
  induction 1 as [|e evs He _ IH]; [done|].
  rewrite filter_cons_False; [done|]. by rewrite He.
Qed.

Lemma visit_quiet ev f rm i :
  (∀ j, is_reset_stop (ev j) = false) → quiet (visit ev f rm i).
Proof.
  intros Hev st.
  destruct (visit_frame ev f rm i st) as (Hr & Hh & Hp & _).
  repeat split; try done.
  rewrite (quit_runs_app st _ _ (visit_trace ev f rm i st)).
  rewrite no_reset_stop; [lia|].
  unfold visit_events. constructor; [done|].
  apply Forall_app. split; [|by repeat constructor].
  destruct (open_slot (keyboard st) i); by repeat constructor.
Qed.

Lemma emit_quiet e : is_reset_stop e = false → quiet (emit e).
Proof.
  intros He st. repeat split; try done.
  rewrite quit_runs_emit, He. lia.
Qed.

Lemma quit_rest_quiet : Forall quiet quit_rest.
Proof.
  unfold quit_rest. rewrite !Forall_app. repeat split.
  - apply Forall_fmap, Forall_forall. intros i _.
    by apply (visit_quiet EvRevert revertusb false).
  - apply Forall_fmap, Forall_forall. intros i _.
    by apply (visit_quiet EvClose closeusb true).
  - repeat (apply Forall_cons; split); [by apply emit_quiet| |by apply emit_quiet|done].
    intros st. repeat split; try done.
    change (quit_runs (emit (EvRmdevpath 0) st) = quit_runs st).
    rewrite quit_runs_emit. simpl. lia.
Qed.

Lemma run_quiet body : Forall quiet body → quiet (run body).
Proof.
  induction 1 as [|a body Ha _ IH]; intros st; [done|].
  rewrite run_cons.
  destruct (IH (a st)) as (-> & -> & -> & ->). apply Ha.
Qed.

(** C1. In every run of [quit] the events are: the abort flag, then the
    revert pass over all slots, then the close pass over all slots,
    then the removal of the root controller. No close is in the revert
    pass and no revert is in or after the close pass, so that every
    revert comes before every close; slot [a] is reverted exactly when
    it is connecting or connected at the start, and slot [b] is closed
    exactly when it is so after the revert pass. *)
Theorem quit_revert_pass_before_close_pass (st : daemon) :
  ∃ pass1 pass2,
    quit_events st = EvResetStop :: pass1 ++ pass2 ++ quit_tail
    ∧ (∀ b, EvClose b ∉ EvResetStop :: pass1)
    ∧ (∀ a, EvRevert a ∉ pass2 ++ quit_tail)
    ∧ (∀ a, EvRevert a ∈ pass1 ↔ a ∈ slots ∧ open_slot (keyboard st) a = true)
    ∧ (∀ b, EvClose b ∈ pass2 ↔ b ∈ slots ∧ open_slot (reverted_table st) b = true)
    ∧ (∀ a b, precedes (EvRevert a) (EvClose b) (quit_events st)).
Proof.
  exists (slots ≫= visit_events EvRevert (keyboard st)),
         (slots ≫= visit_events EvClose (reverted_table st)).
  rewrite quit_events_closed_form.
  assert (H1 : ∀ b, EvClose b ∉
            EvResetStop :: (slots ≫= visit_events EvRevert (keyboard st))).
  { intros b [?|Hin]%elem_of_cons; [done|].
    apply elem_of_visit_pass in Hin as (i & _ & [?|[?|[? _]]]); done. }
  assert (H2 : ∀ a, EvRevert a ∉
            (slots ≫= visit_events EvClose (reverted_table st)) ++ quit_tail).
  { intros a [Hin|Hin]%elem_of_app.
    - apply elem_of_visit_pass in Hin as (i & _ & [?|[?|[? _]]]); done.
    - unfold quit_tail in Hin.
      repeat (apply elem_of_cons in Hin as [?|Hin]; [done|]).
      by apply elem_of_nil in Hin. }
  split; [done|]. split; [exact H1|]. split; [exact H2|].
  split; [|split].
  - intros a. rewrite elem_of_visit_pass. split.
    + intros (i & Hi & [?|[?|[[= ->] Ho]]]); done.
    + intros [Ha Ho]. exists a. by auto.
  - intros b. rewrite elem_of_visit_pass. split.
    + intros (i & Hi & [?|[?|[[= ->] Ho]]]); done.
    + intros [Hb Ho]. exists b. by auto.
  - intros a b.
    apply (precedes_app _ _ (EvResetStop :: _) _ (H1 b) (H2 a)).
Qed.

Lemma open_slot_Some k i kb :
  k !! i = Some kb → open_slot k i = connecting_or_connected kb.
Proof. unfold open_slot. by intros ->. Qed.

Lemma quit_tail_logs e :
  e ∈ quit_tail →
  e = EvLog Info "Closing root controller" [] ∨ e = EvRmdevpath 0 ∨ e = EvUsbkill.
Proof.
  unfold quit_tail. intros He.
  repeat (apply elem_of_cons in He as [->|He]; [by auto|]).
  by apply elem_of_nil in He.
Qed.

(** C7. A slot that is neither connecting nor connected when a pass
    visits it is left as it is: the visit takes and releases the slot's
    lock and does nothing else, in both passes. Over a whole run of
    [quit] such a slot is neither reverted nor closed and keeps its
    contents, and the only message logged by the run is the one that
    announces the removal of the root controller. *)
Theorem quit_skips_empty_slot (st : daemon) (i : nat) (kb : usbdevice) :
  keyboard st !! i = Some kb →
  connecting_or_connected kb = false →
  revert_slot i st = emit (EvUnlock i) (emit (EvLock i) st)
  ∧ close_slot i st = emit (EvUnlock i) (emit (EvLock i) st)
  ∧ (EvRevert i ∉ quit_events st)
  ∧ (EvClose i ∉ quit_events st)
  ∧ keyboard (quit st) !! i = Some kb
  ∧ (∀ lvl fmt args, EvLog lvl fmt args ∈ quit_events st →
       EvLog lvl fmt args = EvLog Info "Closing root controller" []).
Proof.
  intros Hkb Hempty.
  assert (Hrev : reverted_table st !! i = Some kb).
  { rewrite reverted_table_lookup, Hkb. simpl. unfold visited.
    rewrite Hempty. by case_decide. }
  split; [|split].
  - unfold revert_slot. simpl. by rewrite Hkb, Hempty.
  - unfold close_slot. simpl. by rewrite Hkb, Hempty.
  - rewrite quit_events_closed_form.
    assert (Hp1 : ∀ e, e ∈ slots ≫= visit_events EvRevert (keyboard st) →
              e ≠ EvRevert i ∧ (∀ j, e ≠ EvClose j) ∧ ∀ l f a, e ≠ EvLog l f a).
    { intros e (j & _ & [->|[->|[-> Ho]]])%elem_of_visit_pass;
        repeat split; try done.
      intros [= ->]. rewrite (open_slot_Some _ _ _ Hkb) in Ho. congruence. }
    assert (Hp2 : ∀ e, e ∈ slots ≫= visit_events EvClose (reverted_table st) →
              e ≠ EvClose i ∧ (∀ j, e ≠ EvRevert j) ∧ ∀ l f a, e ≠ EvLog l f a).
    { intros e (j & _ & [->|[->|[-> Ho]]])%elem_of_visit_pass;
        repeat split; try done.
      intros [= ->]. rewrite (open_slot_Some _ _ _ Hrev) in Ho. congruence. }
    split; [|split; [|split]].
    + intros [?|[Hin|[Hin|Hin]%elem_of_app]%elem_of_app]%elem_of_cons; [done| | |].
      * by apply Hp1 in Hin as (? & _).
      * apply Hp2 in Hin as (_ & Hin & _). by apply (Hin i).
      * apply quit_tail_logs in Hin as [?|[?|?]]; done.
    + intros [?|[Hin|[Hin|Hin]%elem_of_app]%elem_of_app]%elem_of_cons; [done| | |].
      * apply Hp1 in Hin as (_ & Hin & _). by apply (Hin i).
      * by apply Hp2 in Hin as (? & _).
      * apply quit_tail_logs in Hin as [?|[?|?]]; done.
    + destruct (quit_closed_form st) as (_ & Hk & _).
      rewrite Hk, Hrev. simpl. unfold visited. rewrite Hempty. by case_decide.
    + intros lvl fmt args
        [?|[Hin|[Hin|Hin]%elem_of_app]%elem_of_app]%elem_of_cons; [done| | |].
      * apply Hp1 in Hin as (_ & _ & Hin). by destruct (Hin lvl fmt args).
      * apply Hp2 in Hin as (_ & _ & Hin). by destruct (Hin lvl fmt args).
      * apply quit_tail_logs in Hin as [?|[?|?]]; done.
Qed.


(** ** Signals: exithandler runs the shutdown once *)

Lemma call_handler_frame h type st :
  handlers (call_handler h type st) = handlers st
  ∧ reset_stop (call_handler h type st) = reset_stop st
  ∧ keyboard (call_handler h type st) = keyboard st
  ∧ nodes (call_handler h type st) = nodes st
  ∧ quit_runs (call_handler h type st) = quit_runs st.
Proof.
  destruct h; repeat split; try done; simpl.
  - unfold ignore_signal, safe_write. rewrite !quit_runs_emit. simpl. lia.
  - unfold nullhandler, safe_write. rewrite !quit_runs_emit. simpl. lia.
Qed.

Lemma handled_by_installed h st : handled_by h st → installed st.
Proof. intros H s. by rewrite H. Qed.

Lemma handled_by_intro h st :
  handlers st !! SIGTERM = Some h → handlers st !! SIGINT = Some h →
  handlers st !! SIGQUIT = Some h → handled_by h st.
Proof. intros ??? []; done. Qed.

Lemma installed_signal sig h st : installed st → installed (signal sig h st).
Proof.
  intros H s. unfold signal. simpl.
  destruct (decide (sig = signum s)) as [->|Hne].
  - by rewrite lookup_insert_eq.
  - by rewrite lookup_insert_ne.
Qed.

Lemma installed_eq st st' : handlers st' = handlers st → installed st → installed st'.
Proof. intros E H s. by rewrite E. Qed.

Lemma exithandler_body_length type :
  length (exithandler_body type) = 5 + length quit_rest.
Proof. reflexivity. Qed.

Lemma exithandler_body_lookup type pc :
  5 ≤ pc → exithandler_body type !! pc = quit_rest !! (pc - 5).
Proof.
  intros H. unfold exithandler_body, quit_body.
  destruct pc as [|[|[|[|[|pc]]]]]; try lia. simpl. by rewrite Nat.sub_0_r.
Qed.

Lemma quit_body_lookup pc : 1 ≤ pc → quit_body !! pc = quit_rest !! (pc - 1).
Proof.
  intros H. unfold quit_body. destruct pc as [|pc]; [lia|].
  simpl. by rewrite Nat.sub_0_r.
Qed.

Lemma quit_runs_set_reset_stop st : quit_runs (set_reset_stop st) = S (quit_runs st).
Proof.
  change (quit_runs (emit EvResetStop st) = S (quit_runs st)).
  rewrite quit_runs_emit. simpl. lia.
Qed.

Lemma quit_runs_signal sig h st : quit_runs (signal sig h st) = quit_runs st.
Proof.
  change (quit_runs (emit (EvSignal sig h) st) = quit_runs st).
  rewrite quit_runs_emit. simpl. lia.
Qed.

Lemma safe_deliver st th s :
  installed st →
  ∃ h, handlers st !! signum s = Some h
       ∧ step (Process st th) (Deliver s)
         = match th with
           | Exited _ | Killed _ => Process st th
           | _ => Process (call_handler h (signum s) st) th
           end.
Proof.
  intros Hi. destruct (Hi s) as [h Hh]. exists h. split; [done|].
  unfold step. simpl. rewrite Hh. by destruct th.
Qed.

(** The invariant is kept by every step. *)
Lemma safe_step p i : safe p → safe (step p i).
Proof.
  destruct p as [st th].
  destruct th as [|t pc|r pc|c|sg]; intros H; try done.
  - (* in the loop of usbmain *)
    destruct H as [Hh Hq]. destruct i as [s| |r].
    + destruct (safe_deliver st InUsbmain s (handled_by_installed _ _ Hh))
        as (h & _ & ->).
      destruct (call_handler_frame h (signum s) st) as (Eh & _ & _ & _ & Eq).
      unfold safe; simpl. split; [|by rewrite Eq].
      intros s'. rewrite Eh. apply Hh.
    + unfold step; simpl. destruct (sighandler_pipe st) as [|t rest]; [done|].
      unfold safe; simpl. repeat split; try lia; try done.
      by eapply handled_by_installed.
    + unfold step, safe; simpl. repeat split; try lia; try done.
      by eapply handled_by_installed.
  - (* in exithandler *)
    destruct H as (Hi & H1 & H2 & H3 & Hq & Hpc). simpl in *.
    destruct i as [s| |r]; [| |done].
    + destruct (safe_deliver st (InExithandler t pc) s Hi) as (h & _ & ->).
      destruct (call_handler_frame h (signum s) st) as (Eh & _ & _ & _ & Eq).
      unfold safe; simpl. rewrite Eh, Eq.
      repeat split; try done. by eapply installed_eq.
    + unfold step; simpl.
      destruct (decide (pc < 5)) as [Hlt|Hge].
      * destruct pc as [|[|[|[|[|pc]]]]]; try lia; clear Hlt; simpl;
          unfold safe; simpl.
        -- repeat split; try lia; try done.
           ++ by apply installed_signal.
           ++ intros _. by rewrite lookup_insert_eq.
           ++ by rewrite quit_runs_signal.
        -- repeat split; try lia; try done.
           ++ by apply installed_signal.
           ++ intros _. rewrite lookup_insert_ne by done. apply H1. lia.
           ++ intros _. by rewrite lookup_insert_eq.
           ++ by rewrite quit_runs_signal.
        -- repeat split; try lia; try done.
           ++ by apply installed_signal.
           ++ intros _. rewrite lookup_insert_ne by done. apply H1. lia.
           ++ intros _. rewrite lookup_insert_ne by done. apply H2. lia.
           ++ intros _. by rewrite lookup_insert_eq.
           ++ by rewrite quit_runs_signal.
        -- repeat split; try lia; try done.
           ++ intros _. apply H1. lia.
           ++ intros _. apply H2. lia.
           ++ intros _. apply H3. lia.
           ++ rewrite quit_runs_emit. simpl in *. rewrite Hq. done.
        -- repeat split; try lia; try done.
           ++ intros _. apply H1. lia.
           ++ intros _. apply H2. lia.
           ++ intros _. apply H3. lia.
           ++ rewrite quit_runs_set_reset_stop. simpl in *. rewrite Hq. done.
      * rewrite exithandler_body_lookup by lia.
        rewrite decide_False in Hq by lia.
        destruct (quit_rest !! (pc - 5)) as [a|] eqn:Ea; unfold safe; simpl; [|done].
        pose proof (lookup_lt_Some _ _ _ Ea) as Hlt.
        apply list_elem_of_lookup_2 in Ea.
        destruct (proj1 (Forall_forall _ _) quit_rest_quiet a Ea st)
          as (_ & Eh & _ & Eq).
        rewrite Eh, Eq. rewrite decide_False by lia.
        repeat split; try done; try lia.
        -- by eapply installed_eq.
        -- intros _. apply H1. lia.
        -- intros _. apply H2. lia.
        -- intros _. apply H3. lia.
  - (* in quit, called from main *)
    destruct H as (Hi & Hq & Hpc). simpl in *.
    destruct i as [s| |r']; [| |done].
    + destruct (safe_deliver st (InQuit r pc) s Hi) as (h & _ & ->).
      destruct (call_handler_frame h (signum s) st) as (Eh & _ & _ & _ & Eq).
      unfold safe; simpl. rewrite Eq.
      repeat split; try done. by eapply installed_eq.
    + unfold step; simpl.
      destruct pc as [|pc]; simpl; unfold safe; simpl.
      * rewrite quit_runs_set_reset_stop. simpl in Hq. rewrite Hq.
        repeat split; try done. lia.
      * simpl in Hq.
        destruct (quit_rest !! pc) as [a|] eqn:Ea; simpl; [|done].
        pose proof (lookup_lt_Some _ _ _ Ea) as Hlt.
        apply list_elem_of_lookup_2 in Ea.
        destruct (proj1 (Forall_forall _ _) quit_rest_quiet a Ea st)
          as (_ & Eh & _ & Eq).
        rewrite Eq.
        repeat split; try done; [by eapply installed_eq|].
        unfold quit_body. simpl. lia.
Qed.

Lemma safe_exec sched : ∀ p, safe p → safe (exec p sched).
Proof.
  induction sched as [|i sched IH]; intros p H; [done|].
  apply IH. by apply safe_step.
Qed.

Lemma bridge_ready_safe p : bridge_ready p → safe p.
Proof. intros (Ht & Hh & _ & Hq). unfold safe. by rewrite Ht. Qed.

Lemma step_thread_usbmain p i :
  p_thread (step p i) = InUsbmain → p_thread p = InUsbmain.
Proof.
  destruct p as [st th]. unfold step; simpl.
  destruct th, i; simpl; try done; repeat case_match; done.
Qed.

Lemma pending_step p i : safe p → pending p → pending (step p i).
Proof.
  intros Hs Hp Hth. pose proof (step_thread_usbmain _ _ Hth) as Hth0.
  specialize (Hp Hth0). destruct p as [st th]. simpl in *. subst th.
  destruct Hs as [Hh _]. simpl in *.
  destruct i as [s| |r]; unfold step in *; simpl in *.
  - rewrite Hh. simpl. by destruct (sighandler_pipe st).
  - by destruct (sighandler_pipe st).
  - done.
Qed.

Lemma quit_body_length : length quit_body = S (length quit_rest).
Proof. reflexivity. Qed.

(** Unfolds [remaining] and brings all lengths to [length quit_rest]. *)
Ltac count_steps :=
  unfold remaining, shutdown_steps; cbn [p_thread p_daemon is_main_step];
  rewrite ?exithandler_body_length, ?quit_body_length;
  try lia.

Lemma remaining_step p i :
  safe p → pending p →
  remaining (step p i) ≤ remaining p - (if is_main_step i then 1 else 0).
Proof.
  destruct p as [st th]. intros Hs Hp.
  destruct th as [|t pc|r pc|c|sg]; try done.
  - destruct Hs as [Hh _]. cbn [p_daemon] in Hh.
    destruct i as [s| |r]; unfold step; cbn [p_thread p_daemon is_main_step].
    + rewrite Hh. count_steps.
    + specialize (Hp eq_refl). cbn [p_daemon] in Hp.
      destruct (sighandler_pipe st) as [|t rest]; [done|].
      count_steps.
    + count_steps.
  - destruct Hs as (Hi & _). cbn [p_daemon] in Hi.
    destruct i as [s| |r]; [| |unfold step; count_steps].
    + destruct (safe_deliver st (InExithandler t pc) s Hi) as (h & _ & ->).
      count_steps.
    + unfold step; cbn [p_thread p_daemon is_main_step].
      destruct (exithandler_body t !! pc) as [a|] eqn:Ea; [|count_steps].
      apply lookup_lt_Some in Ea. rewrite exithandler_body_length in Ea.
      count_steps.
  - destruct Hs as (Hi & _). cbn [p_daemon] in Hi.
    destruct i as [s| |r']; [| |unfold step; count_steps].
    + destruct (safe_deliver st (InQuit r pc) s Hi) as (h & _ & ->).
      count_steps.
    + unfold step; cbn [p_thread p_daemon is_main_step].
      destruct (quit_body !! pc) as [a|] eqn:Ea; [|count_steps].
      apply lookup_lt_Some in Ea.
      rewrite ?quit_body_length in Ea. simpl in Ea. count_steps.
Qed.

Lemma main_steps_cons i sched :
  main_steps (i :: sched) = (if is_main_step i then 1 else 0) + main_steps sched.
Proof.
  unfold main_steps. destruct i; simpl; try done.
Qed.

Lemma remaining_exec sched : ∀ p,
  safe p → pending p → remaining (exec p sched) ≤ remaining p - main_steps sched.
Proof.
  induction sched as [|i sched IH]; intros p Hs Hp.
  { change (remaining p ≤ remaining p - 0). lia. }
  rewrite main_steps_cons.
  change (exec p (i :: sched)) with (exec (step p i) sched).
  pose proof (IH (step p i) (safe_step _ _ Hs) (pending_step _ _ Hs Hp)).
  pose proof (remaining_step p i Hs Hp). lia.
Qed.

Lemma remaining_le p : remaining p ≤ shutdown_steps.
Proof. destruct p as [st [|t pc|r pc|c|sg]]; count_steps. Qed.

Lemma remaining_0 p : safe p → remaining p = 0 → ∃ code, p_thread p = Exited code.
Proof.
  destruct p as [st [|t pc|r pc|c|sg]]; intros H H0; try done.
  - exfalso. destruct H as (_ & _ & _ & _ & _ & Hpc).
    rewrite exithandler_body_length in Hpc. revert H0. count_steps.
  - exfalso. destruct H as (_ & _ & Hpc).
    rewrite quit_body_length in Hpc. revert H0. count_steps.
  - by eauto.
Qed.

Lemma ignore_signal_trace type st :
  trace (ignore_signal type st)
  = trace st ++ [ EvWrite "\n[W] Ignoring signal "; EvWrite (signal_name type);
                  EvWrite " (already shutting down)\n" ].
Proof. unfold ignore_signal, safe_write. simpl. by rewrite <- !app_assoc. Qed.

(** From a state of [exithandler], the main thread alone reaches
    [exit(0)] in the state that the function [exithandler] computes. *)
Lemma exec_exithandler type : ∀ rest pc st,
  drop pc (exithandler_body type) = rest →
  exec (Process st (InExithandler type pc)) (replicate (S (length rest)) MainStep)
  = Process (run rest st) (Exited 0).
Proof.
  induction rest as [|a rest IH]; intros pc st Hd.
  - simpl. unfold step; cbn [p_thread p_daemon].
    rewrite (lookup_ge_None_2 _ pc); [done|].
    by apply drop_nil_inv.
  - assert (Ha : exithandler_body type !! pc = Some a).
    { rewrite <- (Nat.add_0_r pc), <- lookup_drop. by rewrite Hd. }
    change (exec (step (Process st (InExithandler type pc)) MainStep)
              (replicate (S (length rest)) MainStep)
            = Process (run rest (a st)) (Exited 0)).
    unfold step at 1; cbn [p_thread p_daemon].
    unfold action in *. rewrite Ha.
    apply IH. rewrite (drop_S _ _ _ Ha) in Hd. by injection Hd.
Qed.

(** The handlers that [exithandler] has not replaced yet are those
    that [main] installed. *)
Lemma unswapped_step p i : safe p → unswapped p → unswapped (step p i).
Proof.
  destruct p as [st th].
  destruct th as [|t pc|r pc|c|sg]; intros Hs Hu; try done.
  - (* in the loop of usbmain *)
    destruct Hs as [Hh _]. simpl in Hh. destruct i as [s| |r]; [| |done].
    + by destruct (safe_deliver st InUsbmain s (handled_by_installed _ _ Hh))
        as (h & _ & ->).
    + unfold step; cbn [p_thread p_daemon].
      destruct (sighandler_pipe st) as [|t rest]; [done|].
      intros s _. apply Hh.
  - (* in exithandler *)
    destruct Hs as (Hi & _). cbn [p_daemon] in Hi.
    unfold unswapped in Hu. cbn [p_thread p_daemon] in Hu.
    destruct i as [s| |r]; [| |done].
    + destruct (safe_deliver st (InExithandler t pc) s Hi) as (h & _ & ->).
      destruct (call_handler_frame h (signum s) st) as (Eh & _).
      intros s' Hs'. cbn [p_daemon]. rewrite Eh. by apply Hu.
    + unfold step; cbn [p_thread p_daemon].
      destruct pc as [|[|pc]].
      * intros s Hs. cbn [lookup] in *. unfold exithandler_body. simpl.
        rewrite lookup_insert_ne by (destruct s; simpl in *; [done|lia|done]).
        apply Hu. lia.
      * intros s Hs. unfold exithandler_body. simpl.
        rewrite lookup_insert_ne by (destruct s; simpl in *; [lia|lia|done]).
        apply Hu. lia.
      * destruct (exithandler_body t !! S (S pc)); [|done].
        intros s Hs. destruct s; simpl in Hs; lia.
  - (* in quit, called from main *)
    destruct Hs as (Hi & _). cbn [p_daemon] in Hi.
    destruct i as [s| |r']; [| |done].
    + by destruct (safe_deliver st (InQuit r pc) s Hi) as (h & _ & ->).
    + unfold step; cbn [p_thread p_daemon]. by destruct (quit_body !! pc).
Qed.

Lemma unswapped_exec sched : ∀ p, safe p → unswapped p → unswapped (exec p sched).
Proof.
  induction sched as [|i sched IH]; intros p Hs Hu; [done|].
  apply IH; [by apply safe_step|by apply unswapped_step].
Qed.

Lemma bridge_ready_unswapped p : bridge_ready p → unswapped p.
Proof. intros (Ht & _). unfold unswapped. by rewrite Ht. Qed.

(** C4, amended. Start with the handlers installed by [main], nothing
    in the channel and [quit] not yet entered, and let termination
    signals arrive between any two statements of the main thread.
    - [quit] is entered at most once.
    - When the reader hands the first signal number to [exithandler],
      [quit] is entered only after all three handlers have been
      replaced by [ignore_signal].
    - From then on a termination signal runs [ignore_signal]: it prints
      the warning and changes nothing else.
    - If a termination signal is delivered and the main thread then
      gets to run [shutdown_steps] statements, the process has exited
      and [quit] has been entered exactly once.
    - The handlers are replaced by [exithandler], not at the delivery of
      the first signal: while the main thread is still in the loop of
      [usbmain], or in [exithandler] before the statement that replaces
      the handler of the signal, a termination signal runs [sighandler]
      again, which appends its number to the channel, prints nothing
      and enters no [quit].
    - In [exithandler] after the statement that replaces its handler, a
      termination signal prints the warning and changes nothing else. *)
Theorem exithandler_runs_quit_once (p0 : process) (sched : list input) :
  bridge_ready p0 →
  let p := exec p0 sched in
  quit_runs (p_daemon p) ≤ 1
  ∧ (∀ type pc, p_thread p = InExithandler type pc →
       1 ≤ quit_runs (p_daemon p) → handled_by Hignore_signal (p_daemon p))
  ∧ (∀ type pc s, p_thread p = InExithandler type pc → 3 ≤ pc →
       step p (Deliver s) = Process (ignore_signal (signum s) (p_daemon p)) (p_thread p)
       ∧ trace (ignore_signal (signum s) (p_daemon p)) = trace (p_daemon p) ++ warning s
       ∧ quit_runs (ignore_signal (signum s) (p_daemon p)) = quit_runs (p_daemon p))
  ∧ (∀ s sched', shutdown_steps ≤ main_steps sched' →
       ∃ code, p_thread (exec p (Deliver s :: sched')) = Exited code
               ∧ quit_runs (p_daemon (exec p (Deliver s :: sched'))) = 1)
  ∧ (∀ s, p_thread p = InUsbmain
          ∨ (∃ type pc, p_thread p = InExithandler type pc ∧ pc ≤ swap_index s) →
       step p (Deliver s) = Process (sighandler (signum s) (p_daemon p)) (p_thread p)
       ∧ trace (sighandler (signum s) (p_daemon p)) = trace (p_daemon p)
       ∧ sighandler_pipe (sighandler (signum s) (p_daemon p))
         = sighandler_pipe (p_daemon p) ++ [signum s]
       ∧ quit_runs (sighandler (signum s) (p_daemon p)) = quit_runs (p_daemon p))
  ∧ (∀ type pc s, p_thread p = InExithandler type pc → swap_index s < pc →
       step p (Deliver s) = Process (ignore_signal (signum s) (p_daemon p)) (p_thread p)
       ∧ trace (ignore_signal (signum s) (p_daemon p)) = trace (p_daemon p) ++ warning s
       ∧ quit_runs (ignore_signal (signum s) (p_daemon p)) = quit_runs (p_daemon p)).
Proof.
  intros Hready p.
  assert (Hsafe : safe p) by (apply safe_exec, bridge_ready_safe, Hready).
  assert (Hun : unswapped p)
    by (apply unswapped_exec; [apply bridge_ready_safe|apply bridge_ready_unswapped];
        apply Hready).
  split; [|split; [|split; [|split; [|split]]]].
  - destruct p as [st [|t pc|r pc|c|sg]]; simpl in *; unfold safe in Hsafe;
      simpl in Hsafe.
    + destruct Hsafe as [_ ->]. lia.
    + destruct Hsafe as (_ & _ & _ & _ & -> & _). case_decide; lia.
    + destruct Hsafe as (_ & -> & _). case_decide; lia.
    + rewrite Hsafe. lia.
    + done.
  - intros type pc Hth Hq. destruct p as [st th]. simpl in *. subst th.
    destruct Hsafe as (_ & H1 & H2 & H3 & Hr & _). simpl in *.
    destruct (decide (pc ≤ 4)); [lia|].
    apply handled_by_intro; [apply H1|apply H2|apply H3]; lia.
  - intros type pc s Hth Hpc. destruct p as [st th]. simpl in *. subst th.
    destruct Hsafe as (Hi & H1 & H2 & H3 & _). simpl in *.
    assert (Hh : handlers st !! signum s = Some Hignore_signal)
      by (destruct s; [apply H2|apply H1|apply H3]; lia).
    split; [|split].
    + unfold step; simpl. by rewrite Hh.
    + apply ignore_signal_trace.
    + by destruct (call_handler_frame Hignore_signal (signum s) st) as (_ & _ & _ & _ & ?).
  - intros s sched' Hsteps.
    change (exec p (Deliver s :: sched')) with (exec (step p (Deliver s)) sched').
    set (p1 := step p (Deliver s)).
    assert (Hsafe1 : safe p1) by (by apply safe_step).
    assert (Hpend : pending p1).
    { intros Hth. pose proof (step_thread_usbmain _ _ Hth) as Hth0.
      subst p1. destruct p as [st th]. simpl in *. subst th.
      destruct Hsafe as [Hh _]. simpl in Hh.
      unfold step; simpl. rewrite Hh. simpl.
      by destruct (sighandler_pipe st). }
    pose proof (remaining_exec sched' p1 Hsafe1 Hpend) as Hrem.
    pose proof (remaining_le p1) as Hle.
    pose proof (safe_exec sched' p1 Hsafe1) as Hsafe2.
    destruct (remaining_0 _ Hsafe2 ltac:(lia)) as [code Hcode].
    exists code. split; [done|].
    unfold safe in Hsafe2. by rewrite Hcode in Hsafe2.
  - intros s Hth.
    assert (Hh : handlers (p_daemon p) !! signum s = Some Hsighandler).
    { destruct p as [st th]. cbn [p_thread p_daemon] in *.
      destruct Hth as [->|(type & pc & -> & Hpc)].
      - destruct Hsafe as [Hh _]. apply Hh.
      - by apply Hun. }
    split; [|by split].
    destruct p as [st th]. cbn [p_thread p_daemon] in *.
    unfold step; cbn [p_thread p_daemon]. rewrite Hh.
    by destruct Hth as [->|(type & pc & -> & _)].
  - intros type pc s Hth Hpc. destruct p as [st th]. simpl in *. subst th.
    destruct Hsafe as (Hi & H1 & H2 & H3 & _). simpl in *.
    assert (Hh : handlers st !! signum s = Some Hignore_signal)
      by (destruct s; simpl in Hpc; [apply H2|apply H1|apply H3]; lia).
    split; [|split].
    + unfold step; simpl. by rewrite Hh.
    + apply ignore_signal_trace.
    + by destruct (call_handler_frame Hignore_signal (signum s) st) as (_ & _ & _ & _ & ?).
Qed.

(** ** main: start-up and exit status *)

Lemma same_core_refl st : same_core st st.
Proof. by repeat split. Qed.

Lemma same_core_trans st1 st2 st3 :
  same_core st1 st2 → same_core st2 st3 → same_core st1 st3.
Proof.
  intros (?&?&?&?&?&?) (?&?&?&?&?&?). repeat split; congruence.
Qed.

Lemma same_core_emit e st : is_reset_stop e = false → same_core st (emit e st).
Proof.
  intros He. repeat split; try done. rewrite quit_runs_emit, He. lia.
Qed.

Lemma same_core_with_opts o st : same_core st (with_opts o st).
Proof. by repeat split. Qed.

Lemma help_or_version_core args : ∀ st st' pt code,
  help_or_version args st = Some (st', pt, code) →
  same_core st st' ∧ code = 0%Z ∧ (pt = AtHelp ∨ pt = AtVersion).
Proof.
  induction args as [|a args IH]; intros st st' pt code; simpl; [done|].
  repeat case_decide; [| |apply IH]; intros [= <- <- <-];
    (split; [by apply same_core_emit|by auto]).
Qed.

Lemma search_keymap_core searchstr keymap : ∀ j st st' code,
  search_keymap searchstr keymap j st = (st', code) → same_core st st'.
Proof.
  induction keymap as [|[name|] keymap IH]; intros j st st' code; simpl.
  - intros [= <- <-]. by apply same_core_emit.
  - destruct (strcasecmp_eq searchstr name); [|apply IH].
    intros [= <- <-]. by apply same_core_emit.
  - case_decide; [|apply IH].
    intros [= <- <-]. by apply same_core_emit.
Qed.

Lemma search_core argument st st' code :
  search argument st = (st', code) → same_core st st'.
Proof.
  unfold search. destruct (sscanf_search _) as [[vendor product] converted].
  apply search_keymap_core.
Qed.

Lemma read_parameter_core argument forceroot st :
  match read_parameter argument forceroot st with
  | inl (st', _) => same_core st st'
  | inr (st', pt, _) => same_core st st' ∧ pt = AtSearch
  end.
Proof.
  unfold read_parameter.
  destruct (sscanf_gid argument) as [newgid|].
  { eapply same_core_trans; [apply same_core_with_opts|by apply same_core_emit]. }
  case_decide.
  { eapply same_core_trans; [apply same_core_with_opts|by apply same_core_emit]. }
  case_decide.
  { eapply same_core_trans; [apply same_core_with_opts|by apply same_core_emit]. }
  case_decide; [apply same_core_refl|].
  destruct (sscanf_ignore argument) as [[vid pid]|]; [apply same_core_with_opts|].
  destruct (String.prefix _ _).
  { destruct (search argument st) as [st' code] eqn:E.
    split; [by eapply search_core|done]. }
  case_decide; [apply same_core_with_opts|apply same_core_refl].
Qed.

Lemma read_parameters_core args : ∀ forceroot st,
  match read_parameters args forceroot st with
  | inl (st', _) => same_core st st'
  | inr (st', pt, _) => same_core st st' ∧ pt = AtSearch
  end.
Proof.
  induction args as [|a args IH]; intros forceroot st; simpl.
  { apply same_core_refl. }
  pose proof (read_parameter_core a forceroot st) as H1.
  destruct (read_parameter a forceroot st) as [[st1 f1]|[[st1 pt1] c1]]; [|done].
  pose proof (IH f1 st1) as H2.
  destruct (read_parameters args f1 st1) as [[st2 f2]|[[st2 pt2] c2]].
  - by eapply same_core_trans.
  - destruct H2. split; [by eapply same_core_trans|done].
Qed.

Lemma set_up_core o st st' st1 : same_core st st' → set_up o st' st1 → set_up o st st1.
Proof.
  intros (Hr & Hk & Hn & Hh & Hp & Hq) (Sr & Sq & Sp & Sk & Sn & Sh & Sw).
  unfold set_up. rewrite Sr, Sq, Sp, Sk, Sn, Sh, Hr, Hq, Hp, Hn, Hh. done.
Qed.

(** Lines 282-305 of [main]. *)
Lemma set_up_intro o st :
  set_up o st
    (signal SIGUSR2 Hnullhandler
       (setup_signal_handlers (o_socketpair o)
          (mkdevpath_root (o_mkdevpath o)
             (with_keyboard (replicate DEV_MAX zero_device) st)))).
Proof.
  unfold set_up, setup_signal_handlers, mkdevpath_root.
  destruct (decide (o_mkdevpath o = 0)%Z), (decide (o_socketpair o ≠ -1)%Z) as [Hs|Hs];
    simpl; (repeat split; try done);
    try (unfold quit_runs; simpl; rewrite ?filter_app, ?length_app; simpl; lia);
    try (intros _; rewrite !elem_of_app; rewrite !list_elem_of_singleton; by auto).
Qed.

(** Every way in which [main] ends before it calls [usbmain]. *)
Lemma startup_cases o argv st :
  match startup o argv st with
  | inl st1 =>
      o_is_pid_running o = 0%Z ∧ o_init_cond_monotonic o = 0%Z ∧ set_up o st st1
  | inr (st', pt, code) =>
      match pt with
      | AtHelp | AtVersion => same_core st st' ∧ code = 0%Z
      | AtAlreadyRunning => same_core st st' ∧ code = 1%Z ∧ o_is_pid_running o ≠ 0%Z
      | AtSearch => same_core st st'
      | AtNotRoot => same_core st st' ∧ code = 0%Z ∧ o_getuid o ≠ 0%Z
      | AtClock =>
          code = 1%Z ∧ o_init_cond_monotonic o ≠ 0%Z
          ∧ ∃ st1, set_up o st st1
                   ∧ st' = ckb_fatal "Failed to initialize monotonic clock." [] st1
      | AtUsbmain | AtSignal => False
      end
  end.
Proof.
  unfold startup.
  destruct (help_or_version (tail argv) st) as [[[st' pt] code]|] eqn:Eh.
  { apply help_or_version_core in Eh as (Hc & -> & [->| ->]); done. }
  set (st0 := printf "ckb-next-daemon %s\n" [PStr CKB_NEXT_VERSION_STR] st).
  assert (H0 : same_core st st0) by (by apply same_core_emit).
  case_decide as Hpid.
  { split; [|done].
    eapply same_core_trans; [exact H0|].
    eapply same_core_trans; [|by apply same_core_emit].
    eapply same_core_trans; [|by apply same_core_emit].
    by apply same_core_emit. }
  pose proof (read_parameters_core (tail argv) true st0) as Hp.
  destruct (read_parameters (tail argv) true st0) as [[sta forceroot]|[[sta pt] code]].
  2:{ destruct Hp as [Hp ->]. by eapply same_core_trans. }
  assert (Ha : same_core st sta) by (by eapply same_core_trans).
  destruct (bool_decide (o_getuid o ≠ 0)%Z && forceroot) eqn:Eroot.
  { apply andb_prop in Eroot as [Eu%bool_decide_eq_true _].
    split; [|done].
    eapply same_core_trans; [exact Ha|by apply same_core_emit]. }
  set (stb := if decide (o_getuid o ≠ 0)%Z then _ else sta).
  assert (Hb : same_core st stb).
  { subst stb. destruct (decide (o_getuid o ≠ 0)%Z); [|exact Ha].
    eapply same_core_trans; [exact Ha|by apply same_core_emit]. }
  pose proof (set_up_core o _ _ _ Hb (set_up_intro o stb)) as Hs.
  destruct (decide (o_init_cond_monotonic o ≠ 0)%Z) as [Hclock|Hclock]; simpl.
  - split; [done|]. split; [done|]. by eexists.
  - split; [done|]. split; [|done].
    by destruct (decide (o_init_cond_monotonic o = 0)%Z).
Qed.

Lemma triple_eq {A B C} (a a' : A) (b b' : B) (c c' : C) :
  (a, b, c) = (a', b', c') → a = a' ∧ b = b' ∧ c = c'.
Proof. by intros [= -> -> ->]. Qed.

Lemma quit_runs_quit st : quit_runs (quit st) = S (quit_runs st).
Proof.
  unfold quit, quit_body. rewrite run_cons.
  destruct (run_quiet _ quit_rest_quiet (set_reset_stop st)) as (_ & _ & _ & ->).
  apply quit_runs_set_reset_stop.
Qed.

(** [exithandler] runs the same [quit] as the end of [main]. *)
Lemma exithandler_quit type st :
  (exithandler type st).1 = quit (run (take 4 (exithandler_body type)) st).
Proof.
  unfold exithandler, exithandler_body. cbn [fst].
  rewrite run_app. reflexivity.
Qed.

Lemma quit_runs_exithandler type st :
  quit_runs (exithandler type st).1 = S (quit_runs st).
Proof.
  rewrite exithandler_quit, quit_runs_quit. f_equal. simpl.
  rewrite quit_runs_emit, !quit_runs_signal. simpl. lia.
Qed.

Lemma quit_runs_usbmain o st : quit_runs (usbmain o st) = quit_runs st.
Proof.
  change (quit_runs (emit EvUsbmain st) = quit_runs st).
  rewrite quit_runs_emit. simpl. lia.
Qed.

(** C6, amended. [quit] is entered exactly on the two paths that go
    through [usbmain]. When [usbmain] returns, the exit status is its
    result; when the shutdown is started by a signal, [exithandler]
    ends the process with status 0, whatever the USB subsystem would
    have returned. *)
Theorem main_exit_status (o : oracle) (argv : list string)
  (st st' : daemon) (pt : exit_point) (code : Z) :
  quit_runs st = 0 →
  main o argv st = (st', pt, code) →
  (1 ≤ quit_runs st' ↔ pt = AtUsbmain ∨ pt = AtSignal)
  ∧ (pt = AtUsbmain → o_usbmain o = UsbReturn code ∧ quit_runs st' = 1)
  ∧ (pt = AtSignal →
       (∃ type, o_usbmain o = UsbSignal type) ∧ code = 0%Z ∧ quit_runs st' = 1).
Proof.
  intros Hq. unfold main.
  pose proof (startup_cases o argv st) as Hs.
  destruct (startup o argv st) as [st1|[[st2 pt2] code2]].
  - destruct Hs as (_ & _ & (_ & Hq1 & _)).
    destruct (o_usbmain o) as [result|type] eqn:Eu.
    + intros [= <- <- <-].
      rewrite quit_runs_quit, quit_runs_usbmain, Hq1, Hq.
      repeat split; try done; try lia. by auto.
    + pose proof (quit_runs_exithandler type (usbmain o st1)) as Hqe.
      unfold exithandler in *. cbv beta iota. cbn [fst] in Hqe.
      intros (<- & <- & <-)%triple_eq.
      rewrite Hqe, quit_runs_usbmain, Hq1, Hq.
      split; [|split].
      * split; [by auto|lia].
      * done.
      * intros _. split; [by eexists|done].
  - intros [= -> -> ->].
    assert (Hq' : quit_runs st' = 0).
    { destruct pt; try done.
      - destruct Hs as [(_&_&_&_&_&->) _]. done.
      - destruct Hs as [(_&_&_&_&_&->) _]. done.
      - destruct Hs as [(_&_&_&_&_&->) _]. done.
      - destruct Hs as (_&_&_&_&_&->). done.
      - destruct Hs as [(_&_&_&_&_&->) _]. done.
      - destruct Hs as (_ & _ & st1 & (_ & Hq1 & _) & ->).
        unfold ckb_fatal. rewrite quit_runs_emit, Hq1, Hq. done. }
    rewrite Hq'.
    destruct pt; try done; repeat split; try done; try lia;
      intros [?|?]; done.
Qed.

(** C5, amended. The exit for "already running" is taken before any
    device state has been created: device table, nodes and handlers are
    as at the start, so no node exists. The exit for the clock failure
    is taken before [usbmain] is called: the device table is all
    zeroes, no node of a slot other than the root controller's exists,
    and the shutdown sequence has not been entered. Both end the
    process with status 1. *)
Theorem fatal_startup_exits (o : oracle) (argv : list string)
  (st st' : daemon) (pt : exit_point) (code : Z) :
  nodes st = ∅ →
  main o argv st = (st', pt, code) →
  (pt = AtAlreadyRunning →
     code = 1%Z ∧ nodes st' = ∅ ∧ keyboard st' = keyboard st
     ∧ handlers st' = handlers st ∧ quit_runs st' = quit_runs st)
  ∧ (pt = AtClock →
     code = 1%Z ∧ nodes st' ⊆ {[0]}
     ∧ keyboard st' = replicate DEV_MAX zero_device
     ∧ quit_runs st' = quit_runs st).
Proof.
  intros Hn. unfold main.
  pose proof (startup_cases o argv st) as Hs.
  destruct (startup o argv st) as [st1|[[st2 pt2] code2]].
  - destruct (o_usbmain o) as [result|type].
    + intros [= <- <- <-]. by split.
    + destruct (exithandler type (usbmain o st1)).
      intros [= <- <- <-]. by split.
  - intros [= -> -> ->]. split; intros ->.
    + destruct Hs as ((_ & Hk & Hn' & Hh & _ & Hq) & -> & _).
      rewrite Hn', Hn. done.
    + destruct Hs as (-> & _ & st1 & (_ & Hq & _ & Hk & Hn1 & _) & ->).
      split; [done|]. split; [|split].
      * simpl. rewrite Hn1, Hn. case_decide; [|done].
        by rewrite union_empty_l_L.
      * done.
      * unfold ckb_fatal. rewrite quit_runs_emit, Hq. simpl. lia.
Qed.



(** ** The abort flag *)

Lemma quit_body_keeps_or_sets : Forall keeps_or_sets quit_body.
Proof.
  unfold quit_body. constructor; [by right|].
  eapply Forall_impl; [apply quit_rest_quiet|].
  intros a Ha st. left. apply Ha.
Qed.

Lemma exithandler_body_keeps_or_sets type : Forall keeps_or_sets (exithandler_body type).
Proof.
  unfold exithandler_body. apply Forall_app. split.
  - repeat constructor.
  - apply quit_body_keeps_or_sets.
Qed.

Lemma run_keeps_or_sets body st :
  Forall keeps_or_sets body → reset_stop st ≠ 0%Z → reset_stop (run body st) ≠ 0%Z.
Proof.
  intros H. revert st. induction H as [|a body Ha _ IH]; intros st Hst; [done|].
  rewrite run_cons. apply IH. destruct (Ha st) as [-> | ->]; done.
Qed.

Lemma step_reset_stop p i :
  reset_stop (p_daemon p) ≠ 0%Z → reset_stop (p_daemon (step p i)) ≠ 0%Z.
Proof.
  destruct p as [st th]. simpl. intros Hst.
  assert (Hbody : ∀ (body : list action) pc a,
            Forall keeps_or_sets body → body !! pc = Some a → reset_stop (a st) ≠ 0%Z).
  { intros body pc a Hb Ha. apply list_elem_of_lookup_2 in Ha.
    destruct (proj1 (Forall_forall _ _) Hb a Ha st) as [-> | ->]; done. }
  unfold step; simpl.
  destruct th as [|t pc|r pc|c|sg], i as [s| |r']; simpl; try done.
  - destruct (handlers st !! signum s) as [h|]; simpl; [|done].
    by destruct (call_handler_frame h (signum s) st) as (_ & -> & _).
  - by destruct (sighandler_pipe st).
  - destruct (handlers st !! signum s) as [h|]; simpl; [|done].
    by destruct (call_handler_frame h (signum s) st) as (_ & -> & _).
  - destruct (exithandler_body t !! pc) as [a|] eqn:Ea; simpl; [|done].
    eapply Hbody; [apply exithandler_body_keeps_or_sets|done].
  - destruct (handlers st !! signum s) as [h|]; simpl; [|done].
    by destruct (call_handler_frame h (signum s) st) as (_ & -> & _).
  - destruct (quit_body !! pc) as [a|] eqn:Ea; simpl; [|done].
    eapply Hbody; [apply quit_body_keeps_or_sets|done].
Qed.

Lemma exec_reset_stop sched : ∀ p,
  reset_stop (p_daemon p) ≠ 0%Z → reset_stop (p_daemon (exec p sched)) ≠ 0%Z.
Proof.
  induction sched as [|i sched IH]; intros p H; [done|].
  apply IH. by apply step_reset_stop.
Qed.

Lemma main_reset_stop o argv st :
  reset_stop st ≠ 0%Z → reset_stop (main o argv st).1.1 ≠ 0%Z.
Proof.
  intros Hst. unfold main.
  pose proof (startup_cases o argv st) as Hs.
  destruct (startup o argv st) as [st1|[[st' pt] code]].
  - assert (H1 : reset_stop (usbmain o st1) ≠ 0%Z).
    { destruct Hs as (_ & _ & (Hr & _)). simpl. by rewrite Hr. }
    destruct (o_usbmain o) as [result|type]; unfold exithandler; cbn [fst].
    + by apply (run_keeps_or_sets quit_body); [apply quit_body_keeps_or_sets|].
    + by apply (run_keeps_or_sets (exithandler_body type));
        [apply exithandler_body_keeps_or_sets|].
  - simpl. destruct pt; try done.
    + by destruct Hs as [(-> & _) _].
    + by destruct Hs as [(-> & _) _].
    + by destruct Hs as [(-> & _) _].
    + by destruct Hs as (-> & _).
    + by destruct Hs as [(-> & _) _].
    + destruct Hs as (_ & _ & st1 & (Hr & _) & ->). simpl. by rewrite Hr.
Qed.

(** C2. [reset_stop = 1] is the first event of every run of [quit] and
    occurs only there, before every revert and every close; the flag
    is 1 in every state of the run after that first statement. Once the
    flag is set, no function of [main.c] clears it: not [quit],
    [exithandler] or a signal handler, not [main], and no interleaving
    of them with signals. *)
Theorem reset_stop_set_first_never_cleared (st : daemon) :
  (∃ rest, quit_events st = EvResetStop :: rest ∧ EvResetStop ∉ rest)
  ∧ (∀ i, precedes EvResetStop (EvRevert i) (quit_events st)
          ∧ precedes EvResetStop (EvClose i) (quit_events st))
  ∧ (∀ k, 1 ≤ k → reset_stop (run (take k quit_body) st) = 1%Z)
  ∧ (reset_stop st ≠ 0%Z →
       reset_stop (quit st) ≠ 0%Z
       ∧ (∀ type, reset_stop (exithandler type st).1 ≠ 0%Z)
       ∧ (∀ h type, reset_stop (call_handler h type st) ≠ 0%Z)
       ∧ (∀ o argv, reset_stop (main o argv st).1.1 ≠ 0%Z)
       ∧ (∀ th sched, reset_stop (p_daemon (exec (Process st th) sched)) ≠ 0%Z)).
Proof.
  assert (Hrest : EvResetStop ∉
    (slots ≫= visit_events EvRevert (keyboard st))
    ++ (slots ≫= visit_events EvClose (reverted_table st)) ++ quit_tail).
  { intros [Hin|[Hin|Hin]%elem_of_app]%elem_of_app.
    - apply elem_of_visit_pass in Hin as (j & _ & [?|[?|[? _]]]); done.
    - apply elem_of_visit_pass in Hin as (j & _ & [?|[?|[? _]]]); done.
    - apply quit_tail_logs in Hin as [?|[?|?]]; done. }
  split; [|split; [|split]].
  - eexists. split; [apply quit_events_closed_form|done].
  - intros i. rewrite quit_events_closed_form.
    split; apply (precedes_app _ _ [EvResetStop]); try done;
      by intros ?%list_elem_of_singleton.
  - intros [|k] Hk; [lia|].
    change (take (S k) quit_body) with (set_reset_stop :: take k quit_rest).
    rewrite run_cons.
    assert (Hq : Forall quiet (take k quit_rest))
      by (eapply Forall_take, quit_rest_quiet).
    by destruct (run_quiet _ Hq (set_reset_stop st)) as (-> & _).
  - intros Hst. repeat split.
    + by apply (run_keeps_or_sets quit_body); [apply quit_body_keeps_or_sets|].
    + intros type.
      by apply (run_keeps_or_sets (exithandler_body type));
        [apply exithandler_body_keeps_or_sets|].
    + intros h type. by destruct (call_handler_frame h type st) as (_ & -> & _).
    + intros o argv. by apply main_reset_stop.
    + intros th sched. by apply exec_reset_stop.
Qed.

(** When [socketpair] succeeds, [main] calls [usbmain] in a state from
    which the analysis of the signals starts. *)
Lemma startup_bridge_ready o argv st st1 :
  startup o argv st = inl st1 →
  o_socketpair o ≠ (-1)%Z →
  sighandler_pipe st = [] →
  quit_runs st = 0 →
  bridge_ready (Process (usbmain o st1) InUsbmain).
Proof.
  intros Hst1 Hsock Hpipe Hq.
  pose proof (startup_cases o argv st) as Hs. rewrite Hst1 in Hs.
  destruct Hs as (_ & _ & (_ & Hq1 & Hp1 & _ & _ & Hh & _)).
  rewrite decide_True in Hh by done.
  split; [done|]. split; [|split].
  - intros s. cbn [p_daemon]. change (handlers (usbmain o st1)) with (handlers st1).
    rewrite Hh. destruct s; cbn [signum].
    + rewrite lookup_insert_ne, lookup_insert_ne by done. apply lookup_insert_eq.
    + rewrite !lookup_insert_ne by done. apply lookup_insert_eq.
    + rewrite lookup_insert_ne by done. apply lookup_insert_eq.
  - cbn [p_daemon]. change (sighandler_pipe (usbmain o st1)) with (sighandler_pipe st1).
    by rewrite Hp1.
  - cbn [p_daemon]. by rewrite quit_runs_usbmain, Hq1.
Qed.

End daemon_proofs.

(** ** The model on concrete inputs *)

Example quit_two_keyboards :
  @quit_events sample two_keyboards
  = [ EvResetStop;
      EvLock 1; EvRevert 1; EvUnlock 1; EvLock 2; EvRevert 2; EvUnlock 2;
      EvLock 3; EvUnlock 3; EvLock 4; EvUnlock 4; EvLock 5; EvUnlock 5;
      EvLock 6; EvUnlock 6; EvLock 7; EvUnlock 7; EvLock 8; EvUnlock 8;
      EvLock 1; EvClose 1; EvUnlock 1; EvLock 2; EvClose 2; EvUnlock 2;
      EvLock 3; EvUnlock 3; EvLock 4; EvUnlock 4; EvLock 5; EvUnlock 5;
      EvLock 6; EvUnlock 6; EvLock 7; EvUnlock 7; EvLock 8; EvUnlock 8;
      EvLog Info "Closing root controller" []; EvRmdevpath 0; EvUsbkill ].
Proof. vm_compute. reflexivity. Qed.

Example quit_two_keyboards_table :
  keyboard (@quit sample two_keyboards) = replicate 9 0%Z
  ∧ nodes (@quit sample two_keyboards) = ∅.
Proof. split; [reflexivity|]. apply set_eq. intros x. vm_compute. tauto. Qed.

Example main_clean_run :
  (@main sample (clean_run 3) argv0 boot).1.2 = AtUsbmain
  ∧ (@main sample (clean_run 3) argv0 boot).2 = 3
  ∧ quit_runs (@main sample (clean_run 3) argv0 boot).1.1 = 1%nat
  ∧ keyboard (@main sample (clean_run 3) argv0 boot).1.1 = replicate 9 0.
Proof. repeat split; reflexivity. Qed.

Example main_help :
  (@main sample (clean_run 3) ["ckb-next-daemon"; "--nobind"; "--help"] boot).1.2 = AtHelp.
Proof. reflexivity. Qed.

Example main_search :
  (@main sample (clean_run 3) ["ckb-next-daemon"; "--search=ESC"] boot).1.2 = AtSearch
  ∧ (@main sample (clean_run 3) ["ckb-next-daemon"; "--search=ESC"] boot).2 = 0
  ∧ (@main sample (clean_run 3) ["ckb-next-daemon"; "--search=f13"] boot).2 = 1.
Proof. repeat split; reflexivity. Qed.

(** SIGINT during normal operation, and a second SIGINT after [quit]
    has been entered: the second one prints the warning only. *)
Example second_interrupt_only_warns :
  let p := @exec sample (Process two_keyboards InUsbmain)
             ([Deliver Interrupt] ++ replicate 6 MainStep ++ [Deliver Interrupt]) in
  p_thread p = InExithandler SIGINT 5
  ∧ quit_runs (p_daemon p) = 1%nat
  ∧ trace (p_daemon p)
    = [ EvSignal SIGTERM Hignore_signal; EvSignal SIGINT Hignore_signal;
        EvSignal SIGQUIT Hignore_signal;
        EvPrintf "\n[I] Caught signal %d\n" [PInt SIGINT];
        EvResetStop ] ++ warning Interrupt.
Proof. vm_compute. repeat split; reflexivity. Qed.

(** Two SIGINTs before the reader runs: the second number stays in the
    channel and the process exits after one shutdown. *)
Example two_interrupts_one_shutdown :
  let p := @exec sample (Process two_keyboards InUsbmain)
             ([Deliver Interrupt; Deliver Interrupt] ++ replicate (@shutdown_steps sample) MainStep) in
  p_thread p = Exited 0
  ∧ quit_runs (p_daemon p) = 1%nat
  ∧ sighandler_pipe (p_daemon p) = [SIGINT].
Proof. vm_compute. repeat split; reflexivity. Qed.

(** C4 as stated fails: a second SIGINT that arrives before the reader
    has handed the first one to [exithandler] runs [sighandler] again.
    Its number is queued and nothing is printed; the run up to
    [exit(0)] prints exactly what the run with one SIGINT prints and
    the second number is still in the channel. *)
Lemma second_signal_is_queued_without_warning :
  @step sample (@exec sample (Process two_keyboards InUsbmain) [Deliver Interrupt])
    (Deliver Interrupt)
  = Process (with_pipe [SIGINT; SIGINT] two_keyboards) InUsbmain
  ∧ trace (p_daemon (@exec sample (Process two_keyboards InUsbmain)
             ([Deliver Interrupt; Deliver Interrupt]
              ++ replicate (@shutdown_steps sample) MainStep)))
    = trace (p_daemon (@exec sample (Process two_keyboards InUsbmain)
               ([Deliver Interrupt] ++ replicate (@shutdown_steps sample) MainStep)))
  ∧ sighandler_pipe (p_daemon (@exec sample (Process two_keyboards InUsbmain)
                       ([Deliver Interrupt; Deliver Interrupt]
                        ++ replicate (@shutdown_steps sample) MainStep)))
    = [SIGINT]
  ∧ ¬ @later_signals_print_warning sample.
Proof.
  split; [reflexivity|]. split; [vm_compute; reflexivity|].
  split; [vm_compute; reflexivity|].
  intros H.
  assert (Hready : @bridge_ready sample (Process two_keyboards InUsbmain)).
  { split; [reflexivity|]. split; [|split; reflexivity].
    intros s. destruct s; reflexivity. }
  specialize (H (Process two_keyboards InUsbmain) Interrupt [] Interrupt Hready).
  apply (f_equal length) in H; [|intros code; discriminate].
  vm_compute in H. discriminate H.
Qed.

Lemma ending_eta {E : Externals} (e : @ending E) : e = (e.1.1, e.1.2, e.2).
Proof. by destruct e as [[? ?] ?]. Qed.

(** C5 as stated fails: when the monotonic clock cannot be set up,
    [main] exits at line 309 with status 1 after [mkdevpath(keyboard)]
    has created the root controller's node, and without removing it. *)
Lemma clock_failure_leaves_root_node :
  (@main sample no_clock argv0 boot).1.2 = AtClock
  ∧ (@main sample no_clock argv0 boot).2 = 1%Z
  ∧ 0%nat ∈ nodes (@main sample no_clock argv0 boot).1.1
  ∧ ¬ @no_node_at_fatal_startup_exit sample.
Proof.
  assert (H0 : 0%nat ∈ nodes (@main sample no_clock argv0 boot).1.1).
  { apply (bool_decide_unpack _). vm_compute. exact I. }
  split; [reflexivity|]. split; [reflexivity|]. split; [exact H0|].
  intros H.
  rewrite (H no_clock argv0 boot _ _ _ eq_refl (ending_eta _)) in H0.
  - by apply not_elem_of_empty in H0.
  - right. reflexivity.
Qed.

(** C6 as stated fails: when the shutdown is started by a signal, the
    shutdown sequence runs and the process ends with the status 0 that
    [exithandler] passes to [exit]; [usbmain] has returned nothing. *)
Lemma signal_exit_status_is_constant :
  (@main sample interrupted argv0 boot).1.2 = AtSignal
  ∧ (@main sample interrupted argv0 boot).2 = 0%Z
  ∧ quit_runs (@main sample interrupted argv0 boot).1.1 = 1%nat
  ∧ ¬ @exit_status_is_usbmain_result sample.
Proof.
  split; [reflexivity|]. split; [reflexivity|]. split; [reflexivity|].
  intros H.
  pose proof (H interrupted argv0 boot _ _ _ eq_refl (ending_eta _)) as Hu.
  discriminate Hu. vm_compute. lia.
Qed.

Lemma reset_stop_set_first_never_cleared_witness :
  reset_stop (@quit sample (with_reset_stop 1 two_keyboards)) ≠ 0%Z.
Proof.
  refine (proj1 (proj2 (proj2 (proj2
    (@reset_stop_set_first_never_cleared sample (with_reset_stop 1 two_keyboards))))
    _)).
  vm_compute. discriminate.
Defined.


Lemma exithandler_runs_quit_once_witness :
  (quit_runs
     (p_daemon (@exec sample (Process two_keyboards InUsbmain)
                  [Deliver Interrupt; MainStep; Deliver Interrupt])) ≤ 1)%nat.
Proof.
  refine (proj1 (@exithandler_runs_quit_once sample (Process two_keyboards InUsbmain)
                   [Deliver Interrupt; MainStep; Deliver Interrupt] _)).
  split; [reflexivity|]. split; [|split; reflexivity].
  intros s. destruct s; reflexivity.
Defined.

Lemma fatal_startup_exits_witness :
  nodes (@main sample already_running argv0 boot).1.1 = ∅.
Proof.
  refine (proj1 (proj2 (proj1
    (@fatal_startup_exits sample already_running argv0 boot _ _ _ _ (ending_eta _)) _))).
  - reflexivity.
  - reflexivity.
Defined.

Lemma main_exit_status_witness :
  @o_usbmain sample (clean_run 3)
  = UsbReturn (@main sample (clean_run 3) argv0 boot).2.
Proof.
  refine (proj1 (proj1 (proj2
    (@main_exit_status sample (clean_run 3) argv0 boot _ _ _ _ (ending_eta _))) _)).
  - reflexivity.
  - reflexivity.
Defined.

Lemma quit_skips_empty_slot_witness :
  @keyboard sample (@quit sample two_keyboards) !! 3%nat
  = @keyboard sample two_keyboards !! 3%nat.
Proof.
  refine (proj1 (proj2 (proj2 (proj2 (proj2
    (@quit_skips_empty_slot sample two_keyboards 3 0%Z _ _)))))).
  - reflexivity.
  - reflexivity.
Defined.


(** * Further properties of main.c *)

(** ** timespec_add *)

(** X1. Without overflow the result of [timespec_add] is normalized
    exactly when the sum of [n] and the old [tv_nsec] is not negative or
    is a whole number of seconds: a negative sum that is not a multiple
    of 10^9 always leaves a negative [tv_nsec]. *)
Theorem timespec_add_normalized_iff (t : timespec) (n : Z) :
  timespec_add_no_overflow t n ->
  (normalized (timespec_add t n)
   <-> 0 <= n + tv_nsec t \/ Z.rem (n + tv_nsec t) NSEC_PER_SEC = 0).
Proof.
  intros Hno. rewrite (timespec_add_exact _ _ Hno).
  unfold normalized, NSEC_PER_SEC; simpl.
  destruct (Z.le_gt_cases 0 (n + tv_nsec t)) as [Hpos|Hneg].
  - assert (Hr : 0 <= Z.rem (n + tv_nsec t) 1000000000 < 1000000000)
      by (apply Z.rem_bound_pos; lia).
    revert Hr. generalize (Z.rem (n + tv_nsec t) 1000000000). intros r Hr. lia.
  - pose proof (Z.rem_bound_pos_neg (n + tv_nsec t) 1000000000) as Hr.
    revert Hr. generalize (Z.rem (n + tv_nsec t) 1000000000). intros r Hr. lia.
Qed.

Lemma timespec_add_normalized_iff_witness :
  ~ normalized (timespec_add (Timespec 5 300) (-301)).
Proof.
  assert (Hno : timespec_add_no_overflow (Timespec 5 300) (-301)).
  { unfold timespec_add_no_overflow, in_int64, int64_min, int64_max; simpl.
    split; split; vm_compute; congruence. }
  intros H. apply (proj1 (timespec_add_normalized_iff _ _ Hno)) in H.
  simpl in H. destruct H as [H|H]; [lia|]. vm_compute in H. discriminate H.
Defined.

(** X2. Adding [a] and then [b] nanoseconds to a normalized timespec,
    both not negative, gives the same timespec as adding [a + b] at
    once, provided the single addition does not overflow. *)
Theorem timespec_add_add (t : timespec) (a b : Z) :
  in_int64 (tv_sec t) -> normalized t -> 0 <= a -> 0 <= b ->
  timespec_add_no_overflow t (a + b) ->
  timespec_add (timespec_add t a) b = timespec_add t (a + b).
Proof.
  unfold normalized, NSEC_PER_SEC, timespec_add_no_overflow, in_int64,
    int64_min, int64_max.
  intros Hs Hn Ha Hb [H1 H2].
  set (B := 1000000000) in *.
  assert (HB : 0 < B) by (unfold B; lia).
  rewrite Z.quot_div_nonneg in H2 by lia.
  assert (Hq : 0 <= (a + tv_nsec t) / B <= (a + b + tv_nsec t) / B).
  { split; [apply Z.div_pos; lia|apply Z.div_le_mono; lia]. }
  assert (Hr : 0 <= (a + tv_nsec t) mod B < B) by (apply Z.mod_pos_bound; lia).
  assert (Hx : a + tv_nsec t = B * ((a + tv_nsec t) / B) + (a + tv_nsec t) mod B)
    by (apply Z.div_mod; lia).
  assert (E1 : timespec_add t a
               = Timespec (tv_sec t + (a + tv_nsec t) / B) ((a + tv_nsec t) mod B)).
  { rewrite timespec_add_exact.
    - fold B. by rewrite Z.quot_div_nonneg, Z.rem_mod_nonneg by lia.
    - unfold timespec_add_no_overflow, in_int64, int64_min, int64_max. fold B.
      rewrite Z.quot_div_nonneg by lia. lia. }
  assert (Hsum : (b + (a + tv_nsec t) mod B) / B
                 = (a + b + tv_nsec t) / B - (a + tv_nsec t) / B
               /\ (b + (a + tv_nsec t) mod B) mod B = (a + b + tv_nsec t) mod B).
  { replace (a + b + tv_nsec t)
      with (b + (a + tv_nsec t) mod B + ((a + tv_nsec t) / B) * B) by lia.
    rewrite Z.div_add, Z.mod_add by lia. lia. }
  destruct Hsum as [Hd Hm].
  rewrite E1. rewrite !timespec_add_exact.
  - simpl. fold B.
    rewrite !Z.quot_div_nonneg, !Z.rem_mod_nonneg by lia.
    rewrite Hd, Hm. f_equal. lia.
  - unfold timespec_add_no_overflow, in_int64, int64_min, int64_max. fold B.
    rewrite Z.quot_div_nonneg by lia. lia.
  - unfold timespec_add_no_overflow, in_int64, int64_min, int64_max.
    simpl. fold B.
    rewrite Z.quot_div_nonneg by lia. rewrite Hd. lia.
Qed.

Lemma timespec_add_add_witness :
  timespec_add (timespec_add (Timespec 5 999999999) 2) 1500000000
  = timespec_add (Timespec 5 999999999) (2 + 1500000000).
Proof.
  refine (timespec_add_add (Timespec 5 999999999) 2 1500000000 _ _ _ _ _);
    unfold timespec_add_no_overflow, normalized, NSEC_PER_SEC, in_int64,
      int64_min, int64_max; simpl;
    repeat split; vm_compute; congruence.
Defined.

(** ** localecase *)

Section localecase_more.
Local Open Scope nat_scope.

Lemma locale_char_idemp c : locale_char (locale_char c) = locale_char c.
Proof. destruct c as [[] [] [] [] [] [] [] []]; reflexivity. Qed.

Lemma locale_char_range c :
  locale_char c ≠ "_"%char ∧ is_upper (locale_char c) = false.
Proof. destruct c as [[] [] [] [] [] [] [] []]; split; done. Qed.

Lemma locale_char_lower c :
  c ≠ "_"%char → is_upper c = false → locale_char c = c.
Proof. destruct c as [[] [] [] [] [] [] [] []]; done. Qed.

(** X3. Converting a name that is already converted changes nothing,
    and the bytes after the terminator of the source do not matter:
    the call on the converted source writes what the call on the
    source writes. *)
Theorem localecase_idempotent (dst : list ascii) (len : nat) (str rest rest' : list ascii) :
  NUL ∉ str → 1 ≤ len → len ≤ length dst →
  localecase dst len (c_string (locale_char <$> str) rest')
  = localecase dst len (c_string str rest).
Proof.
  intros Hnul H1 Hle. unfold localecase.
  rewrite !localecase_loop_bounded; try done; try lia.
  - f_equal. f_equal. rewrite <- fmap_take, <- list_fmap_compose.
    apply list_fmap_ext. intros i c _. apply locale_char_idemp.
  - intros (c & Hc & Hin)%list_elem_of_fmap.
    by apply (locale_char_not_NUL c); [intros ->|].
Qed.

Lemma localecase_idempotent_witness :
  localecase (replicate 8 "x"%char) 6 (c_string (list_ascii_of_string "en-us") [])
  = localecase (replicate 8 "x"%char) 6 (c_string (list_ascii_of_string "en_US") []).
Proof.
  refine (localecase_idempotent (replicate 8 "x"%char) 6
            (list_ascii_of_string "en_US") [] [] _ _ _).
  - compute_done.
  - lia.
  - simpl. lia.
Defined.

(** X4. The string that [localecase] leaves in [dst] contains no
    underscore and no upper-case letter 'A'..'Z'. *)
Theorem localecase_charset (dst : list ascii) (len : nat) (str rest dst' : list ascii)
  (i : nat) (c : ascii) :
  NUL ∉ str → 1 ≤ len → len ≤ length dst →
  localecase dst len (c_string str rest) = Some dst' →
  i < Nat.min (length str) (len - 1) →
  dst' !! i = Some c →
  c ≠ "_"%char ∧ is_upper c = false ∧ c ≠ NUL.
Proof.
  intros Hnul H1 Hle. unfold localecase.
  rewrite localecase_loop_bounded by (done || lia).
  intros [= <-] Hi. unfold written. simpl.
  replace (len - 1 - 0) with (len - 1) by lia.
  rewrite lookup_app_l by (rewrite length_fmap, length_take; lia).
  rewrite list_lookup_fmap.
  destruct (take (len - 1) str !! i) as [c0|] eqn:E; [|done].
  intros [= <-].
  destruct (locale_char_range c0) as [? ?]. repeat split; try done.
  apply locale_char_not_NUL. intros ->. apply Hnul.
  eapply subseteq_take, list_elem_of_lookup_2, E.
Qed.

Lemma localecase_charset_witness :
  ("u"%char ≠ "_"%char) ∧ is_upper "u" = false.
Proof.
  destruct (localecase_charset (replicate 8 "x"%char) 6
              (list_ascii_of_string "en_US") []
              (list_ascii_of_string "en-us" ++ [NUL; "x"; "x"]%char) 3 "u"%char)
    as (H1 & H2 & _).
  - compute_done.
  - lia.
  - simpl. lia.
  - reflexivity.
  - simpl. lia.
  - reflexivity.
  - by split.
Defined.

(** X5. A source that has no underscore and no upper-case letter and
    that fits with its terminator into [length] bytes is copied as it
    is; the bytes of [dst] after the terminator are kept. *)
Theorem localecase_copies_lower (dst : list ascii) (len : nat) (str rest : list ascii) :
  NUL ∉ str →
  (∀ c, c ∈ str → c ≠ "_"%char ∧ is_upper c = false) →
  length str < len → len ≤ length dst →
  localecase dst len (c_string str rest)
  = Some (str ++ NUL :: drop (S (length str)) dst).
Proof.
  intros Hnul Hlow Hlt Hle. unfold localecase.
  rewrite localecase_loop_bounded by (done || lia).
  rewrite take_ge by lia. unfold written. simpl.
  rewrite length_fmap.
  replace (length str + 1) with (S (length str)) by lia.
  do 2 f_equal. rewrite <- (list_fmap_id str) at 2.
  apply list_fmap_ext. intros i c Hc.
  destruct (Hlow c) as [? ?]; [by eapply list_elem_of_lookup_2|].
  by apply locale_char_lower.
Qed.

Lemma localecase_copies_lower_witness :
  localecase (replicate 8 "x"%char) 6 (c_string (list_ascii_of_string "de-at") [])
  = Some (list_ascii_of_string "de-at" ++ [NUL; "x"; "x"]%char).
Proof.
  refine (localecase_copies_lower (replicate 8 "x"%char) 6
            (list_ascii_of_string "de-at") [] _ _ _ _).
  - compute_done.
  - intros c Hc. simpl in Hc.
    repeat (apply elem_of_cons in Hc as [->|Hc]; [by split|]).
    by apply elem_of_nil in Hc.
  - simpl. lia.
  - simpl. lia.
Defined.

End localecase_more.

(** ** quit *)

Section quit_more.
Context `{Ext : Externals}.
Local Open Scope nat_scope.

Lemma lock_run_app l1 : ∀ held l2,
  lock_run held (l1 ++ l2) = lock_run held l1 ≫= λ held', lock_run held' l2.
Proof.
  induction l1 as [|e l1 IH]; intros held l2; [done|].
  simpl. destruct e, held; try done; try case_decide; try done; apply IH.
Qed.

Lemma lock_run_visit (ev : nat → event) k i :
  (ev = EvRevert ∨ ev = EvClose) →
  lock_run None (visit_events ev k i) = Some None.
Proof.
  intros [-> | ->]; unfold visit_events; destruct (open_slot k i); simpl;
    by rewrite ?decide_True.
Qed.

Lemma lock_run_pass (ev : nat → event) k (l : list nat) :
  (ev = EvRevert ∨ ev = EvClose) →
  lock_run None (l ≫= visit_events ev k) = Some None.
Proof.
  intros Hev. induction l as [|i l IH]; [done|].
  rewrite bind_cons, lock_run_app, lock_run_visit by done. exact IH.
Qed.

(** X6. [quit] keeps the lock discipline of the slot table: it never
    holds two locks, it reverts and closes a slot only while it holds
    that slot's lock, it removes the root controller and stops the USB
    subsystem while it holds none, and it has released every lock when
    it returns. *)
Theorem quit_lock_discipline (st : daemon) :
  lock_run None (quit_events st) = Some None.
Proof.
  rewrite quit_events_closed_form. simpl.
  rewrite lock_run_app, lock_run_pass by auto. simpl.
  rewrite lock_run_app, lock_run_pass by auto. done.
Qed.

Lemma slots_of_pass (b : bool) k (l : list nat) :
  reverted_slots (l ≫= visit_events (if b then EvRevert else EvClose) k)
  = (if b then filter (λ i, open_slot k i = true) l else [])
  ∧ closed_slots (l ≫= visit_events (if b then EvRevert else EvClose) k)
    = (if b then [] else filter (λ i, open_slot k i = true) l)
  ∧ locked_slots (l ≫= visit_events (if b then EvRevert else EvClose) k) = l.
Proof.
  unfold reverted_slots, closed_slots, locked_slots.
  induction l as [|i l (IH1 & IH2 & IH3)].
  { by destruct b. }
  rewrite bind_cons, !omap_app, IH1, IH2, IH3. rewrite !filter_cons.
  unfold visit_events.
  destruct b; destruct (open_slot k i) eqn:Eo; simpl;
    rewrite ?decide_True by done; rewrite ?decide_False by done; done.
Qed.

Lemma quit_slot_order_aux (st : daemon) :
  reverted_slots (quit_events st)
  = filter (λ i, open_slot (keyboard st) i = true) (seq 1 (DEV_MAX - 1))
  ∧ closed_slots (quit_events st)
    = filter (λ i, open_slot (reverted_table st) i = true) (seq 1 (DEV_MAX - 1))
  ∧ locked_slots (quit_events st) = seq 1 (DEV_MAX - 1) ++ seq 1 (DEV_MAX - 1).
Proof.
  rewrite quit_events_closed_form. fold slots.
  destruct (slots_of_pass true (keyboard st) slots) as (R1 & C1 & L1).
  destruct (slots_of_pass false (reverted_table st) slots) as (R2 & C2 & L2).
  unfold reverted_slots, closed_slots, locked_slots in *.
  change (EvResetStop :: ?l) with ([EvResetStop] ++ l).
  rewrite !omap_app, R1, R2, C1, C2, L1, L2. simpl.
  by rewrite !app_nil_r.
Qed.


(** X7. [quit] reverts exactly the slots that are connecting or
    connected when it starts, closes exactly the slots that are so
    after the revert pass, each of them once and in ascending order of
    the index, and takes the lock of every slot 1..DEV_MAX-1 once in
    each pass; slot 0 is never locked, reverted or closed. *)
Theorem quit_slot_order (st : daemon) :
  reverted_slots (quit_events st)
  = filter (λ i, open_slot (keyboard st) i = true) (seq 1 (DEV_MAX - 1))
  ∧ closed_slots (quit_events st)
    = filter (λ i, open_slot (reverted_table st) i = true) (seq 1 (DEV_MAX - 1))
  ∧ locked_slots (quit_events st) = seq 1 (DEV_MAX - 1) ++ seq 1 (DEV_MAX - 1).
Proof. apply quit_slot_order_aux. Qed.

(** X8. [quit] sets the abort flag and works on slots 1..DEV_MAX-1
    only: the entry of the root controller (slot 0) and the size of the
    table are as before, the signal handlers, the notification channel
    and the options are untouched, no node is created and the root
    controller's node is gone. *)
Theorem quit_frame (st : daemon) :
  reset_stop (quit st) = 1%Z
  ∧ keyboard (quit st) !! 0 = keyboard st !! 0
  ∧ length (keyboard (quit st)) = length (keyboard st)
  ∧ (∀ j, DEV_MAX ≤ j → keyboard (quit st) !! j = keyboard st !! j)
  ∧ handlers (quit st) = handlers st
  ∧ sighandler_pipe (quit st) = sighandler_pipe st
  ∧ opts (quit st) = opts st
  ∧ nodes (quit st) ⊆ nodes st
  ∧ 0 ∉ nodes (quit st).
Proof.
  destruct (quit_closed_form st) as (_ & Hk & Hr & Hh & Hp & Ho & Hl & Hn).
  assert (Hout : ∀ j, j ∉ slots → keyboard (quit st) !! j = keyboard st !! j).
  { intros j Hj. rewrite Hk, reverted_table_lookup. by rewrite !decide_False. }
  repeat split; try done.
  - apply Hout. rewrite elem_of_slots. lia.
  - intros j Hj. apply Hout. rewrite elem_of_slots. lia.
  - apply elem_of_subseteq. intros x Hx. apply Hn in Hx.
    by apply elem_of_difference in Hx as [? _].
  - intros H0. apply Hn in H0. apply elem_of_difference in H0 as [_ H0].
    apply H0. by apply elem_of_singleton.
Qed.

Lemma quit_leaves_closed st i :
  (∀ kb, connecting_or_connected (closeusb kb) = false) →
  i ∈ slots → open_slot (keyboard (quit st)) i = false.
Proof.
  intros Hclose Hi. destruct (quit_closed_form st) as (_ & Hk & _).
  unfold open_slot. rewrite Hk. rewrite decide_True by done.
  destruct (reverted_table st !! i) as [kb|]; simpl; [|done].
  unfold visited. destruct (connecting_or_connected kb) eqn:E; [apply Hclose|done].
Qed.

Lemma filter_none {A} (P : A → Prop) `{∀ x, Decision (P x)} (l : list A) :
  (∀ x, x ∈ l → ¬ P x) → filter P l = [].
Proof.
  induction l as [|x l IH]; intros Hl; [done|].
  rewrite filter_cons_False by (apply Hl; left).
  apply IH. intros y Hy. apply Hl. by right.
Qed.

(** X9. If [closeusb] leaves a slot neither connecting nor connected,
    a second run of [quit] is harmless: it reverts and closes nothing
    and leaves the device table as the first run left it. *)
Theorem quit_twice (st : daemon) :
  (∀ kb, connecting_or_connected (closeusb kb) = false) →
  reverted_slots (quit_events (quit st)) = []
  ∧ closed_slots (quit_events (quit st)) = []
  ∧ keyboard (quit (quit st)) = keyboard (quit st).
Proof.
  intros Hclose.
  assert (Hrev : ∀ j, reverted_table (quit st) !! j = keyboard (quit st) !! j).
  { intros j. rewrite reverted_table_lookup. case_decide as Hj; [|done].
    pose proof (quit_leaves_closed st j Hclose Hj) as Ho. unfold open_slot in Ho.
    destruct (keyboard (quit st) !! j) as [kb|]; simpl; [|done].
    unfold visited. by rewrite Ho. }
  assert (Hfilter : ∀ k, (∀ j, k !! j = keyboard (quit st) !! j) →
            filter (λ i, open_slot k i = true) slots = []).
  { intros k Hk. apply filter_none. intros j Hj.
    pose proof (quit_leaves_closed st j Hclose Hj) as Ho.
    unfold open_slot in *. rewrite Hk, Ho. done. }
  destruct (quit_slot_order_aux (quit st)) as (-> & -> & _).
  split; [by apply Hfilter|]. split; [by apply Hfilter|].
  apply list_eq. intros j. destruct (quit_closed_form (quit st)) as (_ & -> & _).
  rewrite Hrev. case_decide as Hj; [|done].
  pose proof (quit_leaves_closed st j Hclose Hj) as Ho. unfold open_slot in Ho.
  destruct (keyboard (quit st) !! j) as [kb|]; simpl; [|done].
  unfold visited. by rewrite Ho.
Qed.

End quit_more.

(** ** Signals *)

Section signals_more.
Context `{Ext : Externals}.
Local Open Scope nat_scope.

Lemma exec_snoc p sched i : exec p (sched ++ [i]) = step (exec p sched) i.
Proof. unfold exec. by rewrite foldl_app. Qed.

Lemma usb_results_snoc sched i :
  usb_results (sched ++ [i])
  = usb_results sched ++ match i with UsbmainReturns r => [r] | _ => [] end.
Proof. unfold usb_results. rewrite omap_app. by destruct i. Qed.

(** X10. With the handlers of [main] installed, no termination signal
    ever takes its default action, whatever arrives and whenever. The
    process ends only by [exit(0)] of [exithandler] or by [main]
    returning a result of [usbmain]. *)
Theorem bridge_never_killed (p0 : process) (sched : list input) :
  bridge_ready p0 →
  (∀ sig, p_thread (exec p0 sched) ≠ Killed sig)
  ∧ (∀ code, p_thread (exec p0 sched) = Exited code →
       code = 0%Z ∨ code ∈ usb_results sched).
Proof.
  intros Hready.
  pose proof (safe_exec sched p0 (bridge_ready_safe _ Hready)) as Hsafe.
  split.
  { intros sig Hk. unfold safe in Hsafe. by rewrite Hk in Hsafe. }
  assert (Hinv : match p_thread (exec p0 sched) with
                 | InUsbmain | InExithandler _ _ | Killed _ => True
                 | InQuit r _ => r ∈ usb_results sched
                 | Exited c => c = 0%Z ∨ c ∈ usb_results sched
                 end).
  { clear Hsafe. induction sched as [|i sched IH] using rev_ind.
    - destruct Hready as (Hth & _).
      change (exec p0 []) with p0. by rewrite Hth.
    - rewrite exec_snoc, usb_results_snoc.
      destruct (exec p0 sched) as [st th]. simpl in IH.
      unfold step; cbn [p_thread p_daemon].
      destruct th as [|t pc|r pc|c|sg], i as [s| |r'];
        cbn [p_thread]; try done;
        repeat case_match; simplify_eq; cbn [p_thread] in *; try done;
        rewrite ?app_nil_r, ?elem_of_app, ?list_elem_of_singleton;
        naive_solver. }
  intros code Hc. by rewrite Hc in Hinv.
Qed.

Lemma exec_deliveries (ds : list termsig) : ∀ st,
  handled_by Hsighandler st →
  exec (Process st InUsbmain) (Deliver <$> ds)
  = Process (with_pipe (sighandler_pipe st ++ (signum <$> ds)) st) InUsbmain.
Proof.
  induction ds as [|s ds IH]; intros st Hh.
  - simpl. rewrite app_nil_r. by destruct st.
  - rewrite fmap_cons.
    change (exec ?p (?i :: ?l)) with (exec (step p i) l).
    unfold step; cbn [p_thread p_daemon]. rewrite Hh.
    cbn [call_handler]. rewrite IH by (intros s'; apply Hh).
    unfold sighandler, with_pipe; simpl. by rewrite <- app_assoc.
Qed.

(** X11. Signals that arrive before the reader runs are queued in the
    order of their arrival, and [exithandler] is called with the first
    of them; the later ones stay in the channel. Nothing has been
    printed and the devices have not been touched by then. *)
Theorem first_signal_is_handled (p0 : process) (s : termsig) (ds : list termsig) :
  bridge_ready p0 →
  exec p0 ((Deliver <$> (s :: ds)) ++ [MainStep])
  = Process (with_pipe (signum <$> ds) (p_daemon p0)) (InExithandler (signum s) 0).
Proof.
  intros (Hth & Hh & Hp & _). destruct p0 as [st th].
  cbn [p_thread p_daemon] in *. subst th.
  rewrite exec_snoc, exec_deliveries by done.
  rewrite Hp. unfold step; cbn [p_thread p_daemon]. done.
Qed.

Lemma devices_inv st st' :
  devices st = devices st' →
  reset_stop st = reset_stop st' ∧ keyboard st = keyboard st'
  ∧ nodes st = nodes st' ∧ handlers st = handlers st' ∧ opts st = opts st'
  ∧ filter (λ e, is_write e = false) (trace st)
    = filter (λ e, is_write e = false) (trace st').
Proof. unfold devices. by intros [= ? ? ? ? ? ?]. Qed.










Lemma installed_devices st st' : devices st = devices st' → installed st → installed st'.
Proof.
  intros (_ & _ & _ & Hh & _)%devices_inv Hi s. rewrite <- Hh. apply Hi.
Qed.





End signals_more.

(** ** main: the command line *)

Section main_more.
Context `{Ext : Externals}.
Local Open Scope nat_scope.

(** X13. The loop over the patched keymap reports the first entry, in
    the order of the key ids, that the search looks for: the first key
    with the given name, letters compared without regard to case, or,
    for an empty name, the first entry without a name. It returns 0
    when there is one and 1 when there is none. *)
Theorem search_keymap_first_hit (searchstr : string) (keymap : list (option string))
  (j0 : Z) (st : daemon) :
  search_keymap searchstr keymap j0 st
  = match list_find (λ entry, key_hit searchstr entry = true) keymap with
    | Some (j, Some name) =>
        (printf "Key %s has id %d\n" [PStr name; PInt (j0 + Z.of_nat j)] st, 0%Z)
    | Some (j, None) =>
        (printf "First NULL key has id %d\n" [PInt (j0 + Z.of_nat j)] st, 0%Z)
    | None => (printf "Key %s was not found\n" [PStr searchstr] st, 1%Z)
    end.
Proof.
  revert j0. induction keymap as [|entry keymap IH]; intros j0; [done|].
  cbn [search_keymap list_find].
  destruct entry as [name|]; cbn [key_hit].
  - destruct (strcasecmp_eq searchstr name) eqn:E.
    + rewrite decide_True by done. cbn. by rewrite Z.add_0_r.
    + rewrite decide_False by done. rewrite IH.
      destruct (list_find _ keymap) as [[j [n|]]|]; cbn; try done;
        by replace (j0 + 1 + Z.of_nat j)%Z with (j0 + Z.of_nat (S j))%Z by lia.
  - destruct (decide (searchstr = EmptyString)) as [->|Hne].
    + rewrite decide_True by done. cbn. by rewrite Z.add_0_r.
    + rewrite decide_False by (by rewrite bool_decide_eq_true).
      rewrite IH.
      destruct (list_find _ keymap) as [[j [n|]]|]; cbn; try done;
        by replace (j0 + 1 + Z.of_nat j)%Z with (j0 + Z.of_nat (S j))%Z by lia.
Qed.

Lemma add_ignored_length vid pid (l : list (Z * Z)) :
  length (add_ignored vid pid l) = length l.
Proof.
  induction l as [|[v p] l IH]; [done|]. simpl.
  destruct (bool_decide (v ≠ 0%Z) || bool_decide (p ≠ 0%Z)); simpl; by rewrite ?IH.
Qed.

(** X14. A vid/pid pair given with [--ignore=] is entered in the first
    unused entry of [ignored_devices] and nowhere else; when no entry is
    unused the pair is dropped and the table stays as it is. The size
    of the table never changes. *)
Theorem add_ignored_first_free (vid pid : Z) (l : list (Z * Z)) :
  length (add_ignored vid pid l) = length l
  ∧ add_ignored vid pid l
    = match list_find free_entry l with
      | Some (j, _) => <[j := (vid, pid)]> l
      | None => l
      end.
Proof.
  induction l as [|[v p] l [IHl IH]]; [done|].
  cbn [add_ignored list_find].
  destruct (decide (free_entry (v, p))) as [[Hv Hp]|Hn]; simpl in *.
  - subst. by rewrite !bool_decide_eq_false_2 by (by intros []).
  - assert (E : bool_decide (v ≠ 0%Z) || bool_decide (p ≠ 0%Z) = true).
    { destruct (decide (v = 0%Z)) as [->|]; [|by rewrite bool_decide_eq_true_2].
      destruct (decide (p = 0%Z)) as [->|]; [by destruct Hn|].
      rewrite (bool_decide_eq_true_2 (p ≠ 0%Z)) by done. apply orb_true_r. }
    rewrite E. simpl. split; [by rewrite IHl|].
    rewrite IH. by destruct (list_find free_entry l) as [[j e]|].
Qed.

Lemma help_or_version_None args st :
  help_or_version args st = None ↔ ("--help" ∉ args) ∧ ("--version" ∉ args).
Proof.
  induction args as [|a args IH]; simpl.
  { split; [|done]. intros _. split; apply not_elem_of_nil. }
  rewrite !not_elem_of_cons.
  destruct (decide (a = "--help")) as [->|Hh]; [by split; [|intros [[] _]]|].
  destruct (decide (a = "--version")) as [->|Hv]; [by split; [|intros [_ [[] _]]]|].
  rewrite IH. split; [intros [? ?]|intros [[_ ?] [_ ?]]]; by auto.
Qed.

(** The decisions of [startup] after the first loop over [argv], in
    the order in which [main] takes them. *)
Lemma startup_tree o argv st :
  help_or_version (tail argv) st = None →
  if decide (o_is_pid_running o ≠ 0%Z)
  then ∃ st', startup o argv st = inr (st', AtAlreadyRunning, 1%Z)
  else
    match read_parameters (tail argv) true
            (printf "ckb-next-daemon %s\n" [PStr CKB_NEXT_VERSION_STR] st) with
    | inr e => startup o argv st = inr e
    | inl (sta, forceroot) =>
        if bool_decide (o_getuid o ≠ 0%Z) && forceroot
        then ∃ st', startup o argv st = inr (st', AtNotRoot, 0%Z)
        else if decide (o_init_cond_monotonic o ≠ 0%Z)
             then ∃ st', startup o argv st = inr (st', AtClock, 1%Z)
             else ∃ st1, startup o argv st = inl st1
               ∧ (o_getuid o ≠ 0%Z →
                  EvLog Warn
                    "Warning: not running as root, allowing anyway per command-line parameter..."
                    [] ∈ trace st1)
    end.
Proof.
  intros Hh. unfold startup. rewrite Hh.
  destruct (decide (o_is_pid_running o ≠ 0%Z)); [by eexists|].
  destruct (read_parameters _ _ _) as [[sta forceroot]|e]; [|done].
  destruct (bool_decide (o_getuid o ≠ 0%Z) && forceroot); [by eexists|].
  destruct (decide (o_init_cond_monotonic o ≠ 0%Z)); [by eexists|].
  eexists. split; [done|]. intros Hu. rewrite decide_True by done.
  unfold setup_signal_handlers, mkdevpath_root.
  repeat case_decide; simpl; rewrite !elem_of_app, !list_elem_of_singleton;
    by auto 10.
Qed.

Lemma main_startup_exit o argv st e :
  startup o argv st = inr e → main o argv st = e.
Proof. unfold main. by intros ->. Qed.

(** X15. If [--help] or [--version] occurs anywhere on the command
    line, [main] prints the text and returns 0 at once, whatever else
    is on the command line and whether or not a daemon is running or
    the caller is root; nothing but the output has changed. Without
    them [main] does not end at these two places. *)
Theorem main_help_or_version (o : oracle) (argv : list string) (st : daemon) :
  ((main o argv st).1.2 = AtHelp ∨ (main o argv st).1.2 = AtVersion
   ↔ "--help" ∈ tail argv ∨ "--version" ∈ tail argv)
  ∧ ((main o argv st).1.2 = AtHelp ∨ (main o argv st).1.2 = AtVersion →
     (main o argv st).2 = 0%Z ∧ same_core st (main o argv st).1.1).
Proof.
  pose proof (startup_cases o argv st) as Hs.
  destruct (help_or_version (tail argv) st) as [[[st' pt] code]|] eqn:Eh.
  - assert (Hin : "--help" ∈ tail argv ∨ "--version" ∈ tail argv).
    { destruct (decide ("--help" ∈ tail argv)); [by left|].
      destruct (decide ("--version" ∈ tail argv)); [by right|].
      by rewrite (proj2 (help_or_version_None _ st)) in Eh. }
    assert (Hm : main o argv st = (st', pt, code)).
    { apply main_startup_exit. unfold startup. by rewrite Eh. }
    rewrite Hm. simpl.
    apply help_or_version_core in Eh as (Hc & -> & Hpt).
    split; [by split|]. intros _. by split.
  - pose proof (startup_tree o argv st Eh) as Ht.
    apply help_or_version_None in Eh as [Hh Hv].
    assert (Hpt : (main o argv st).1.2 ≠ AtHelp ∧ (main o argv st).1.2 ≠ AtVersion).
    { unfold main.
      destruct (startup o argv st) as [st1|[[st' pt] code]] eqn:Es.
      - destruct (o_usbmain o); unfold exithandler; simpl; by split.
      - simpl. destruct (decide (o_is_pid_running o ≠ 0%Z)).
        { destruct Ht as [? [= -> -> ->]]. by split. }
        destruct (read_parameters _ _ _) as [[sta forceroot]|[[? ?] ?]] eqn:Er.
        + destruct (bool_decide (o_getuid o ≠ 0%Z) && forceroot).
          { destruct Ht as [? [= -> -> ->]]. by split. }
          destruct (decide (o_init_cond_monotonic o ≠ 0%Z)).
          { destruct Ht as [? [= -> -> ->]]. by split. }
          by destruct Ht as [? [? _]].
        + injection Ht as -> -> ->.
          pose proof (read_parameters_core (tail argv) true
            (printf "ckb-next-daemon %s\n" [PStr CKB_NEXT_VERSION_STR] st)) as Hc.
          rewrite Er in Hc. destruct Hc as [_ ->]. by split. }
    destruct Hpt as [H1 H2]. split; [|by intros [?|?]].
    split; [by intros [?|?]|by intros [?|?]].
Qed.

Lemma search_keymap_code searchstr keymap : ∀ j st,
  (search_keymap searchstr keymap j st).2 = 0%Z
  ∨ (search_keymap searchstr keymap j st).2 = 1%Z.
Proof.
  induction keymap as [|[name|] keymap IH]; intros j st; simpl.
  - by right.
  - destruct (strcasecmp_eq searchstr name); [by left|apply IH].
  - case_decide; [by left|apply IH].
Qed.

Lemma search_code argument st : (search argument st).2 = 0%Z ∨ (search argument st).2 = 1%Z.
Proof.
  unfold search. destruct (sscanf_search _) as [[vendor product] converted].
  apply search_keymap_code.
Qed.

Lemma search_prefix_ne a b :
  String.prefix "--search=" a = true → String.prefix "--search=" b = false → a ≠ b.
Proof. intros Ha Hb ->. congruence. Qed.

(** What [read_parameter] does with one argument, by the branch taken. *)
Lemma read_parameter_cases a forceroot st :
  match read_parameter a forceroot st with
  | inr (st', pt, code) =>
      search_argument a ∧ pt = AtSearch ∧ (code = 0%Z ∨ code = 1%Z)
  | inl (st', forceroot') =>
      ¬ search_argument a
      ∧ (forceroot' = true ↔ forceroot = true ∧ ¬ nonroot_argument a)
  end.
Proof.
  unfold read_parameter, search_argument, nonroot_argument.
  destruct (sscanf_gid a) as [newgid|] eqn:Eg.
  { split; [by intros [? _]|]. split; [by intros ->; split; [|intros [? _]]|by intros [? _]]. }
  destruct (decide (a = "--nobind")) as [->|Hb].
  { split; [by intros (_ & _ & ?)|].
    split; [by intros ->; split; [|intros [_ ?]]|by intros [? _]]. }
  destruct (decide (a = "--nonotify")) as [->|Hn].
  { split; [by intros (_ & _ & ?)|].
    split; [by intros ->; split; [|intros [_ ?]]|by intros [? _]]. }
  destruct (decide (a = "--nonroot")) as [->|Hr].
  { split; [by intros (_ & _ & ?)|]. split; [done|]. intros [_ Hn']. by destruct Hn'. }
  destruct (sscanf_ignore a) as [[vid pid]|] eqn:Ei.
  { split; [by intros (_ & ? & _)|].
    split; [by intros ->; split; [|intros [_ ?]]|by intros [? _]]. }
  destruct (String.prefix "--search=" a) eqn:Ep.
  { pose proof (search_code a st) as Hc.
    destruct (search a st) as [st' code]. by repeat split. }
  destruct (decide (a = "--enable-experimental")) as [->|He].
  { split; [by intros (_ & _ & ?)|].
    split; [by intros ->; split; [|intros [_ ?]]|by intros [? _]]. }
  split; [by intros (_ & _ & ?)|].
  split; [by intros ->; split; [|intros [_ ?]]|by intros [? _]].
Qed.

Lemma read_parameters_cases args : ∀ forceroot st,
  match read_parameters args forceroot st with
  | inr (st', pt, code) =>
      (∃ a, a ∈ args ∧ search_argument a) ∧ pt = AtSearch ∧ (code = 0%Z ∨ code = 1%Z)
  | inl (st', forceroot') =>
      (∀ a, a ∈ args → ¬ search_argument a)
      ∧ (forceroot' = true ↔ forceroot = true ∧ ∀ a, a ∈ args → ¬ nonroot_argument a)
  end.
Proof.
  induction args as [|a args IH]; intros forceroot st; simpl.
  { split; [by intros a ?%elem_of_nil|].
    split; [intros ->; split; [done|by intros a ?%elem_of_nil]|by intros [? _]]. }
  pose proof (read_parameter_cases a forceroot st) as H1.
  destruct (read_parameter a forceroot st) as [[st1 f1]|[[st1 pt1] c1]].
  - destruct H1 as [Hs1 Hf1]. pose proof (IH f1 st1) as H2.
    destruct (read_parameters args f1 st1) as [[st2 f2]|[[st2 pt2] c2]].
    + destruct H2 as [Hs2 Hf2]. split.
      * intros b [->|Hb]%elem_of_cons; [done|by apply Hs2].
      * rewrite Hf2, Hf1. split.
        -- intros [[? ?] ?]. split; [done|].
           intros b [->|Hb]%elem_of_cons; by auto.
        -- intros [? Hall]. split; [split; [done|]|].
           ++ apply Hall. by left.
           ++ intros b Hb. apply Hall. by right.
    + destruct H2 as ((b & Hb & Hsb) & ? & ?). split; [|done].
      exists b. split; [by right|done].
  - destruct H1 as (? & ? & ?). split; [|done]. exists a. split; [by left|done].
Qed.

(** X16. When another daemon is running, [main] ends with status 1 at
    the check of the PID before it looks at any other parameter, also
    at [--search=]; only [--help] and [--version] come before. Nothing
    but the output has changed. *)
Theorem main_already_running (o : oracle) (argv : list string) (st : daemon) :
  "--help" ∉ tail argv → "--version" ∉ tail argv →
  o_is_pid_running o ≠ 0%Z →
  (main o argv st).1.2 = AtAlreadyRunning
  ∧ (main o argv st).2 = 1%Z
  ∧ same_core st (main o argv st).1.1.
Proof.
  intros Hh Hv Hpid.
  pose proof (startup_tree o argv st (proj2 (help_or_version_None _ st) (conj Hh Hv)))
    as Ht.
  rewrite decide_True in Ht by done. destruct Ht as [st' Hst].
  pose proof (startup_cases o argv st) as Hs. rewrite Hst in Hs.
  rewrite (main_startup_exit _ _ _ _ Hst). simpl. by destruct Hs as (? & _).
Qed.

(** X17. When the caller is not root, no daemon is running and the
    command line asks for no help, version or search: without an
    effective [--nonroot], [main] ends with [exit(0)], status 0, before
    any device state exists; with one it goes on, up to the clock check
    or into [usbmain]. *)
Theorem main_not_root (o : oracle) (argv : list string) (st : daemon) :
  "--help" ∉ tail argv → "--version" ∉ tail argv →
  (∀ a, a ∈ tail argv → ¬ search_argument a) →
  o_is_pid_running o = 0%Z →
  o_getuid o ≠ 0%Z →
  ((∀ a, a ∈ tail argv → ¬ nonroot_argument a) →
     (main o argv st).1.2 = AtNotRoot ∧ (main o argv st).2 = 0%Z
     ∧ same_core st (main o argv st).1.1)
  ∧ ((∃ a, a ∈ tail argv ∧ nonroot_argument a) →
     (main o argv st).1.2 = AtClock ∨ (main o argv st).1.2 = AtUsbmain
     ∨ (main o argv st).1.2 = AtSignal).
Proof.
  intros Hh Hv Hsearch Hpid Huid.
  pose proof (startup_tree o argv st (proj2 (help_or_version_None _ st) (conj Hh Hv)))
    as Ht.
  rewrite decide_False in Ht by (by intros []).
  pose proof (read_parameters_cases (tail argv) true
    (printf "ckb-next-daemon %s\n" [PStr CKB_NEXT_VERSION_STR] st)) as Hr.
  destruct (read_parameters _ _ _) as [[sta forceroot]|[[st' pt] code]].
  2:{ destruct Hr as ((a & Ha & Hsa) & _). by destruct (Hsearch a Ha). }
  destruct Hr as [_ Hf]. rewrite bool_decide_eq_true_2 in Ht by done.
  split.
  - intros Hnon. rewrite (proj2 Hf) in Ht by done. simpl in Ht.
    destruct Ht as [st' Hst].
    pose proof (startup_cases o argv st) as Hs. rewrite Hst in Hs.
    rewrite (main_startup_exit _ _ _ _ Hst). simpl. by destruct Hs as (? & ? & _).
  - intros (a & Ha & Hna).
    destruct forceroot.
    { destruct (proj1 Hf eq_refl) as [_ Hall]. by destruct (Hall a Ha). }
    simpl in Ht.
    destruct (decide (o_init_cond_monotonic o ≠ 0%Z)).
    + destruct Ht as [st' Hst]. rewrite (main_startup_exit _ _ _ _ Hst). by left.
    + destruct Ht as (st1 & Hst & _). unfold main. rewrite Hst.
      destruct (o_usbmain o); unfold exithandler; simpl; by auto.
Qed.

(** X18. An argument that starts with [--search=] ends the process at
    the search, with status 0 or 1, when no daemon is running and no
    help or version is asked for: the search needs no root, creates no
    device state and never reaches [usbmain]. *)
Theorem main_search_ends_process (o : oracle) (argv : list string) (st : daemon) (a : string) :
  "--help" ∉ tail argv → "--version" ∉ tail argv →
  o_is_pid_running o = 0%Z →
  a ∈ tail argv → search_argument a →
  (main o argv st).1.2 = AtSearch
  ∧ ((main o argv st).2 = 0%Z ∨ (main o argv st).2 = 1%Z)
  ∧ same_core st (main o argv st).1.1.
Proof.
  intros Hh Hv Hpid Ha Hsa.
  pose proof (startup_tree o argv st (proj2 (help_or_version_None _ st) (conj Hh Hv)))
    as Ht.
  rewrite decide_False in Ht by (by intros []).
  pose proof (read_parameters_cases (tail argv) true
    (printf "ckb-next-daemon %s\n" [PStr CKB_NEXT_VERSION_STR] st)) as Hr.
  destruct (read_parameters _ _ _) as [[sta forceroot]|[[st' pt] code]].
  { destruct Hr as [Hall _]. by destruct (Hall a Ha). }
  destruct Hr as (_ & -> & Hcode).
  pose proof (startup_cases o argv st) as Hs. rewrite Ht in Hs.
  rewrite (main_startup_exit _ _ _ _ Ht). simpl. done.
Qed.

Lemma land_submask a b : Z.land (Z.land a b) a = Z.land a b.
Proof.
  apply Z.bits_inj'. intros n _. rewrite !Z.land_spec.
  by destruct (Z.testbit a n), (Z.testbit b n).
Qed.

Lemma land_cleared a b c : Z.land (Z.land a (Z.land (Z.lnot b) (Z.lnot c))) b = 0%Z
  ∧ Z.land (Z.land a (Z.land (Z.lnot b) (Z.lnot c))) c = 0%Z.
Proof.
  split; apply Z.bits_inj'; intros n Hn;
    rewrite !Z.land_spec, !Z.lnot_spec, Z.bits_0 by done;
    by destruct (Z.testbit a n), (Z.testbit b n), (Z.testbit c n).
Qed.

Lemma submask_cleared m' m b : Z.land m' m = m' → Z.land m b = 0%Z → Z.land m' b = 0%Z.
Proof.
  intros <- Hb. by rewrite <- Z.land_assoc, Hb, Z.land_0_r.
Qed.

Lemma read_parameter_options a forceroot st :
  match read_parameter a forceroot st with
  | inl (st', _) =>
      Z.land (features_mask (opts st')) (features_mask (opts st))
      = features_mask (opts st')
      ∧ length (ignored_devices (opts st')) = length (ignored_devices (opts st))
      ∧ (nobind_argument a →
         Z.land (features_mask (opts st')) FEAT_BIND = 0%Z
         ∧ Z.land (features_mask (opts st')) FEAT_NOTIFY = 0%Z)
  | inr _ => True
  end.
Proof.
  unfold read_parameter, nobind_argument.
  destruct (sscanf_gid a) as [newgid|] eqn:Eg.
  { simpl. rewrite Z.land_diag.
    split; [done|]. split; [done|]. intros [? _]; congruence. }
  destruct (decide (a = "--nobind")) as [->|Hb].
  { simpl. rewrite land_submask.
    split; [done|]. split; [done|]. intros _. apply land_cleared. }
  destruct (decide (a = "--nonotify")) as [->|Hn].
  { simpl. rewrite land_submask.
    split; [done|]. split; [done|]. by intros [_ ?]. }
  destruct (decide (a = "--nonroot")) as [->|Hr].
  { rewrite Z.land_diag.
    split; [done|]. split; [done|]. by intros [_ ?]. }
  destruct (sscanf_ignore a) as [[vid pid]|] eqn:Ei.
  { simpl. rewrite Z.land_diag.
    split; [done|]. split; [apply add_ignored_length|]. by intros [_ ?]. }
  destruct (String.prefix "--search=" a); [by destruct (search a st)|].
  destruct (decide (a = "--enable-experimental")) as [->|He].
  { simpl. rewrite Z.land_diag.
    split; [done|]. split; [done|]. by intros [_ ?]. }
  rewrite Z.land_diag.
  split; [done|]. split; [done|]. by intros [_ ?].
Qed.

(** X19. No parameter switches a feature on: after the loop over the
    parameters every bit of [features_mask] that is set was set before.
    After an effective [--nobind] anywhere on the command line the bits
    of FEAT_BIND and FEAT_NOTIFY are clear, whatever follows it. The
    size of [ignored_devices] does not change. *)
Theorem read_parameters_options (args : list string) (forceroot forceroot' : bool)
  (st st' : daemon) :
  read_parameters args forceroot st = inl (st', forceroot') →
  Z.land (features_mask (opts st')) (features_mask (opts st)) = features_mask (opts st')
  ∧ length (ignored_devices (opts st')) = length (ignored_devices (opts st))
  ∧ ((∃ a, a ∈ args ∧ nobind_argument a) →
     Z.land (features_mask (opts st')) FEAT_BIND = 0%Z
     ∧ Z.land (features_mask (opts st')) FEAT_NOTIFY = 0%Z).
Proof.
  revert forceroot st. induction args as [|a args IH]; intros forceroot st; simpl.
  { intros [= <- <-]. rewrite Z.land_diag.
    split; [done|]. split; [done|]. by intros (a & ?%elem_of_nil & _). }
  pose proof (read_parameter_options a forceroot st) as H1.
  destruct (read_parameter a forceroot st) as [[st1 f1]|e]; [|done].
  destruct H1 as (Hm1 & Hl1 & Hb1). intros Hrest.
  destruct (IH _ _ Hrest) as (Hm2 & Hl2 & Hb2).
  assert (Hm : Z.land (features_mask (opts st')) (features_mask (opts st))
               = features_mask (opts st')).
  { rewrite <- Hm2 at 1. rewrite <- Z.land_assoc, Hm1. exact Hm2. }
  split; [exact Hm|]. split; [congruence|].
  intros (b & [->|Hb]%elem_of_cons & Hnb).
  - destruct (Hb1 Hnb) as [Hc1 Hc2].
    split; [exact (submask_cleared _ _ _ Hm2 Hc1)|exact (submask_cleared _ _ _ Hm2 Hc2)].
  - apply Hb2. by exists b.
Qed.

(** X20. Whichever way the shutdown is started, by the return of
    [usbmain] or by a signal, [main] ends with the abort flag set, the
    root controller's node removed, no node created beyond those the
    USB subsystem left, the device table at its size and, if [closeusb]
    leaves a slot neither connecting nor connected, with no slot
    1..DEV_MAX-1 connecting or connected. *)
Theorem main_leaves_devices_closed (o : oracle) (argv : list string)
  (st st' : daemon) (pt : exit_point) (code : Z) :
  main o argv st = (st', pt, code) →
  pt = AtUsbmain ∨ pt = AtSignal →
  (∀ kb, connecting_or_connected (closeusb kb) = false) →
  reset_stop st' = 1%Z
  ∧ (0 ∉ nodes st')
  ∧ nodes st' ⊆ o_nodes o
  ∧ length (keyboard st') = length (o_keyboard o)
  ∧ ∀ i, 1 ≤ i < DEV_MAX → open_slot (keyboard st') i = false.
Proof.
  intros Hmain Hpt Hclose.
  assert (Hq : ∃ s, st' = quit s ∧ nodes s = o_nodes o ∧ keyboard s = o_keyboard o).
  { unfold main in Hmain.
    pose proof (startup_cases o argv st) as Hs.
    destruct (startup o argv st) as [st1|[[st2 pt2] code2]].
    - destruct (o_usbmain o) as [result|type].
      + apply triple_eq in Hmain as (<- & _ & _).
        exists (usbmain o st1). split; [reflexivity|]. split; reflexivity.
      + pose proof (exithandler_quit type (usbmain o st1)) as Hx.
        unfold exithandler in *. cbn [fst] in Hx.
        apply triple_eq in Hmain as (<- & _ & _). rewrite Hx.
        exists (run (take 4 (exithandler_body type)) (usbmain o st1)).
        split; [reflexivity|]. split; reflexivity.
    - apply triple_eq in Hmain as (-> & -> & ->).
      by destruct Hpt as [-> | ->]. }
  destruct Hq as (s & -> & Hn & Hk).
  destruct (quit_closed_form s) as (_ & _ & Hr & _ & _ & _ & Hl & Hnodes).
  split; [done|]. split; [|split; [|split]].
  - intros H0. apply Hnodes in H0. apply elem_of_difference in H0 as [_ H0].
    apply H0. by apply elem_of_singleton.
  - apply elem_of_subseteq. intros x Hx. apply Hnodes in Hx.
    apply elem_of_difference in Hx as [Hx _]. by rewrite <- Hn.
  - by rewrite Hl, Hk.
  - intros i Hi. apply quit_leaves_closed; [done|]. by apply elem_of_slots.
Qed.

(** X21. When [main] calls [usbmain], the device table is all zeroes,
    the root controller's node exists if [mkdevpath] succeeded,
    [nullhandler] handles SIGUSR2 whether or not [socketpair]
    succeeded, [sighandler] handles the three termination signals if it
    did, and the abort flag and the channel are as at the start. *)
Theorem main_state_at_usbmain (o : oracle) (argv : list string) (st st1 : daemon) :
  startup o argv st = inl st1 →
  keyboard st1 = replicate DEV_MAX zero_device
  ∧ (o_mkdevpath o = 0%Z → 0 ∈ nodes st1)
  ∧ (o_mkdevpath o ≠ 0%Z → nodes st1 = nodes st)
  ∧ handlers st1 !! SIGUSR2 = Some Hnullhandler
  ∧ (o_socketpair o ≠ (-1)%Z → handled_by Hsighandler st1)
  ∧ reset_stop st1 = reset_stop st
  ∧ sighandler_pipe st1 = sighandler_pipe st.
Proof.
  intros Hst1.
  pose proof (startup_cases o argv st) as Hs. rewrite Hst1 in Hs.
  destruct Hs as (_ & _ & (Hr & _ & Hp & Hk & Hn & Hh & _)).
  split; [done|]. split; [|split; [|split; [|split]]]; try done.
  - intros Hm. rewrite Hn, decide_True by done.
    apply elem_of_union. right. by apply elem_of_singleton.
  - intros Hm. by rewrite Hn, decide_False.
  - rewrite Hh. apply lookup_insert_eq.
  - intros Hsock. rewrite decide_True in Hh by done.
    intros s. rewrite Hh. destruct s; cbn [signum].
    + rewrite lookup_insert_ne, lookup_insert_ne by done. apply lookup_insert_eq.
    + rewrite !lookup_insert_ne by done. apply lookup_insert_eq.
    + rewrite lookup_insert_ne by done. apply lookup_insert_eq.
Qed.

(** X22. The exit status of [main] by the place where it ends: 0 for
    help and version, for a caller who is not root and after a shutdown
    started by a signal; 1 for a daemon already running and for a clock
    that cannot be set up; 0 or 1 for a search; the result of [usbmain]
    when it returns. *)
Theorem main_exit_status_table (o : oracle) (argv : list string) (st : daemon) :
  match (main o argv st).1.2 with
  | AtHelp | AtVersion | AtNotRoot | AtSignal => (main o argv st).2 = 0%Z
  | AtAlreadyRunning | AtClock => (main o argv st).2 = 1%Z
  | AtSearch => (main o argv st).2 = 0%Z ∨ (main o argv st).2 = 1%Z
  | AtUsbmain => o_usbmain o = UsbReturn (main o argv st).2
  end.
Proof.
  pose proof (startup_cases o argv st) as Hs.
  destruct (startup o argv st) as [st1|[[st' pt] code]] eqn:Est.
  { unfold main. rewrite Est.
    destruct (o_usbmain o); unfold exithandler; by cbn [fst snd]. }
  rewrite (main_startup_exit _ _ _ _ Est). cbn [fst snd].
  destruct pt; try (by destruct Hs as (? & ? & _)); try (by destruct Hs).
  (* the search: its status comes out of the loop over the keymap *)
  destruct (help_or_version (tail argv) st) as [[[? ?] ?]|] eqn:Eh.
    { unfold startup in Est. rewrite Eh in Est. injection Est as -> -> ->.
      by apply help_or_version_core in Eh as (_ & _ & [?|?]). }
    pose proof (startup_tree o argv st Eh) as Ht. rewrite Est in Ht.
    destruct (decide (o_is_pid_running o ≠ 0%Z)); [by destruct Ht as [? ?]|].
    pose proof (read_parameters_cases (tail argv) true
      (printf "ckb-next-daemon %s\n" [PStr CKB_NEXT_VERSION_STR] st)) as Hr.
    destruct (read_parameters _ _ _) as [[sta forceroot]|[[st2 pt2] code2]].
    + destruct (bool_decide (o_getuid o ≠ 0%Z) && forceroot);
        [by destruct Ht as [? ?]|].
      destruct (decide (o_init_cond_monotonic o ≠ 0%Z));
        [by destruct Ht as [? ?]|by destruct Ht as (? & ? & _)].
    + injection Ht as <- <- <-. by destruct Hr as (_ & _ & ?).
Qed.

End main_more.


(** ** The properties above on the [sample] functions *)

Lemma quit_twice_witness :
  @keyboard sample (@quit sample (@quit sample two_keyboards))
  = @keyboard sample (@quit sample two_keyboards).
Proof.
  refine (proj2 (proj2 (@quit_twice sample two_keyboards _))).
  intros kb. reflexivity.
Defined.

Lemma bridge_never_killed_witness :
  p_thread (@exec sample (Process two_keyboards InUsbmain)
              [Deliver Interrupt; MainStep; Deliver Terminate])
  ≠ Killed SIGTERM.
Proof.
  refine (proj1 (@bridge_never_killed sample (Process two_keyboards InUsbmain)
                   [Deliver Interrupt; MainStep; Deliver Terminate] _) SIGTERM).
  split; [reflexivity|]. split; [|split; reflexivity].
  intros s. destruct s; reflexivity.
Defined.

Lemma first_signal_is_handled_witness :
  @exec sample (Process two_keyboards InUsbmain)
    ((Deliver <$> [Interrupt; Terminate]) ++ [MainStep])
  = Process (with_pipe (signum <$> [Terminate]) two_keyboards)
            (InExithandler (signum Interrupt) 0).
Proof.
  refine (@first_signal_is_handled sample (Process two_keyboards InUsbmain)
            Interrupt [Terminate] _).
  split; [reflexivity|]. split; [|split; reflexivity].
  intros s. destruct s; reflexivity.
Defined.


Lemma main_already_running_witness :
  (@main sample already_running argv_search boot).2 = 1.
Proof.
  refine (proj1 (proj2
    (@main_already_running sample already_running argv_search boot _ _ _))).
  - compute_done.
  - compute_done.
  - discriminate.
Defined.

Lemma main_not_root_witness :
  (@main sample not_root argv_nobind boot).1.2 = AtNotRoot.
Proof.
  refine (proj1 (proj1
    (@main_not_root sample not_root argv_nobind boot _ _ _ _ _) _)).
  - compute_done.
  - compute_done.
  - intros a Ha (_ & _ & Hp). apply list_elem_of_singleton in Ha as ->. discriminate.
  - reflexivity.
  - discriminate.
  - intros a Ha [_ Hn]. apply list_elem_of_singleton in Ha as ->. discriminate.
Defined.

Lemma main_search_ends_process_witness :
  (@main sample not_root argv_search boot).1.2 = AtSearch.
Proof.
  refine (proj1
    (@main_search_ends_process sample not_root argv_search boot "--search=ESC"
       _ _ _ _ _)).
  - compute_done.
  - compute_done.
  - reflexivity.
  - compute_done.
  - split; [reflexivity|]. split; reflexivity.
Defined.

Lemma read_parameters_options_witness :
  match @read_parameters sample (tail argv_nobind) true boot with
  | inl (st', _) => Z.land (features_mask (opts st')) (@FEAT_BIND sample) = 0
  | inr _ => False
  end.
Proof.
  destruct (@read_parameters sample (tail argv_nobind) true boot)
    as [[st' forceroot']|e] eqn:E.
  - refine (proj1 (proj2 (proj2
      (@read_parameters_options sample (tail argv_nobind) true forceroot' boot st' E))
      _)).
    exists "--nobind". split; [compute_done|]. split; reflexivity.
  - discriminate E.
Defined.

Lemma main_leaves_devices_closed_witness :
  reset_stop (@main sample interrupted argv0 boot).1.1 = 1.
Proof.
  refine (proj1
    (@main_leaves_devices_closed sample interrupted argv0 boot _ _ _
       (ending_eta _) _ _)).
  - right. reflexivity.
  - intros kb. reflexivity.
Defined.

Lemma main_state_at_usbmain_witness :
  match @startup sample (clean_run 0) argv0 boot with
  | inl st1 => handlers st1 !! SIGUSR2 = Some Hnullhandler
  | inr _ => False
  end.
Proof.
  destruct (@startup sample (clean_run 0) argv0 boot) as [st1|e] eqn:E.
  - exact (proj1 (proj2 (proj2 (proj2
      (@main_state_at_usbmain sample (clean_run 0) argv0 boot st1 E))))).
  - discriminate E.
Defined.
